(** * route35: a small authoritative DNS server with upstream fall-back

    A shallow embedding of [main.go].  The program answers queries for one
    owned zone from an in-memory record table, forwards what it does not know
    to a list of upstream nameservers, and lets an HTTP interface edit the
    table.

    What the program gets from its environment is kept abstract:
    - the network ([dns.Client.Exchange]) is an oracle over an abstract world,
      and every call is recorded in a trace;
    - the zone-file parser [dns.NewRR] is a function [string -> option RR];
    - the address of interface en0 ([Host]) is a string;
    - [json.Unmarshal] into a Go string is a function.
    Log output ([log.Printf]) has no influence on any result and is left out. *)

From stdpp Require Import gmap strings list fin_maps pretty.

(** ** Strings: the parts of Go's [strings] and [fmt] the program calls *)

(** [strings.HasSuffix]: [len(s) >= len(suffix) && s[len(s)-len(suffix):] == suffix]. *)
Definition HasSuffix (s suffix : string) : bool :=
  bool_decide (String.length suffix ≤ String.length s)
  && bool_decide (String.substring (String.length s - String.length suffix)
                                   (String.length suffix) s = suffix).

(** [strings.TrimSuffix]: [s] without the trailing [suffix], or [s] itself. *)
Definition TrimSuffix (s suffix : string) : string :=
  if HasSuffix s suffix
  then String.substring 0 (String.length s - String.length suffix) s
  else s.

(** [strings.Join(elems, sep)]. *)
Fixpoint Join (elems : list string) (sep : string) : string :=
  match elems with
  | [] => EmptyString
  | [e] => e
  | e :: rest => e +:+ sep +:+ Join rest sep
  end.

(** ** The data of github.com/miekg/dns the program touches *)

(** [dns.Question]. *)
Record Question := mkQuestion {
  Q_Name : string;
  Qtype : Z;
  Qclass : Z;
}.

Global Instance Question_eq_dec : EqDecision Question.
Proof. solve_decision. Defined.

(** [dns.RR_Header], what [rr.Header()] returns. *)
Record RR_Header := mkRR_Header {
  Name : string;
  Rrtype : Z;
  Class : Z;
  Ttl : Z;
}.

Global Instance RR_Header_eq_dec : EqDecision RR_Header.
Proof. solve_decision. Defined.

(** A resource record: its header, and its data in presentation format. *)
Record RR := mkRR {
  Header : RR_Header;
  Rdata : string;
}.

Global Instance RR_eq_dec : EqDecision RR.
Proof. solve_decision. Defined.

Definition TypeA : Z := 1.
Definition TypeNS : Z := 2.
Definition ClassINET : Z := 1.
Definition OpcodeQuery : Z := 0.
Definition RcodeSuccess : Z := 0.
Definition RcodeServerFailure : Z := 2.

(** [dns.MsgHdr]. *)
Record MsgHdr := mkMsgHdr {
  Id : Z;
  Response : bool;
  Opcode : Z;
  Authoritative : bool;
  Truncated : bool;
  RecursionDesired : bool;
  RecursionAvailable : bool;
  Zero : bool;
  AuthenticatedData : bool;
  CheckingDisabled : bool;
  Rcode : Z;
}.

Global Instance MsgHdr_eq_dec : EqDecision MsgHdr.
Proof. solve_decision. Defined.

(** [dns.Msg].  [Compress] is not part of the message on the wire: it tells the
    encoder whether to compress names when the message is packed.
    [Questions] is the Go field [Question]. *)
Record Msg := mkMsg {
  Hdr : MsgHdr;
  Compress : bool;
  Questions : list Question;
  Answer : list RR;
  Ns : list RR;
  Extra : list RR;
}.

Global Instance Msg_eq_dec : EqDecision Msg.
Proof. solve_decision. Defined.

(** [new(dns.Msg)] and [&dns.Msg{}]: every field at its zero value. *)
Definition new_Msg : Msg :=
  mkMsg (mkMsgHdr 0 false 0 false false false false false false false 0)
        false [] [] [] [].

(** Field assignments [m.F = v]. *)
Definition set_Hdr (h : MsgHdr) (m : Msg) : Msg :=
  mkMsg h (Compress m) (Questions m) (Answer m) (Ns m) (Extra m).
Definition set_Compress (b : bool) (m : Msg) : Msg :=
  mkMsg (Hdr m) b (Questions m) (Answer m) (Ns m) (Extra m).
Definition set_Question (qs : list Question) (m : Msg) : Msg :=
  mkMsg (Hdr m) (Compress m) qs (Answer m) (Ns m) (Extra m).
Definition set_Answer (rs : list RR) (m : Msg) : Msg :=
  mkMsg (Hdr m) (Compress m) (Questions m) rs (Ns m) (Extra m).
Definition set_Ns (rs : list RR) (m : Msg) : Msg :=
  mkMsg (Hdr m) (Compress m) (Questions m) (Answer m) rs (Extra m).

Definition set_Authoritative (b : bool) (m : Msg) : Msg :=
  let h := Hdr m in
  set_Hdr (mkMsgHdr (Id h) (Response h) (Opcode h) b (Truncated h)
             (RecursionDesired h) (RecursionAvailable h) (Zero h)
             (AuthenticatedData h) (CheckingDisabled h) (Rcode h)) m.
Definition set_RecursionAvailable (b : bool) (m : Msg) : Msg :=
  let h := Hdr m in
  set_Hdr (mkMsgHdr (Id h) (Response h) (Opcode h) (Authoritative h) (Truncated h)
             (RecursionDesired h) b (Zero h)
             (AuthenticatedData h) (CheckingDisabled h) (Rcode h)) m.
Definition set_Rcode (rcode : Z) (m : Msg) : Msg :=
  let h := Hdr m in
  set_Hdr (mkMsgHdr (Id h) (Response h) (Opcode h) (Authoritative h) (Truncated h)
             (RecursionDesired h) (RecursionAvailable h) (Zero h)
             (AuthenticatedData h) (CheckingDisabled h) rcode) m.

(** [Msg.SetReply], from the library's defaults.go: the reply takes the
    request's id and opcode, is marked a response with rcode success, copies
    the RD and CD bits of a standard query, and its question section is the
    request's FIRST question (none when the request has none).  The other
    fields of the receiver are left as they are. *)
Definition SetReply (dns request : Msg) : Msg :=
  let h := Hdr dns in
  let rq := Hdr request in
  let standard := bool_decide (Opcode rq = OpcodeQuery) in
  let dns :=
    set_Hdr (mkMsgHdr (Id rq) true (Opcode rq) (Authoritative h) (Truncated h)
               (if standard then RecursionDesired rq else RecursionDesired h)
               (RecursionAvailable h) (Zero h) (AuthenticatedData h)
               (if standard then CheckingDisabled rq else CheckingDisabled h)
               RcodeSuccess) dns in
  match Questions request with
  | [] => dns
  | q :: _ => set_Question [q] dns
  end.

(** [Msg.SetRcode]: [SetReply], then the rcode. *)
Definition SetRcode (dns request : Msg) (rcode : Z) : Msg :=
  set_Rcode rcode (SetReply dns request).

(** What [c.Exchange] hands back: a reply with a nil error, a reply with
    [dns.ErrTruncated], or any other error (and no usable reply). *)
Inductive ExchangeResult :=
| ExchangeOk (r : Msg)
| ExchangeTruncated (r : Msg)
| ExchangeFailed (err : string).

Global Instance ExchangeResult_eq_dec : EqDecision ExchangeResult.
Proof. solve_decision. Defined.

(** The reply the program goes on with: [err == nil || err == dns.ErrTruncated]. *)
Definition usable (res : ExchangeResult) : option Msg :=
  match res with
  | ExchangeOk r | ExchangeTruncated r => Some r
  | ExchangeFailed _ => None
  end.

(** [dns.Client], as far as the program sets it. *)
Record Client := mkClient {
  Net : string;
  Timeout : Z;
}.

Global Instance Client_eq_dec : EqDecision Client.
Proof. solve_decision. Defined.

(** ** Configuration *)

(** [type Record struct]: a single DNS entry. *)
Record Record_ := mkRecord {
  Address : string;
  TTL : Z;
}.

Global Instance Record_eq_dec : EqDecision Record_.
Proof. solve_decision. Defined.

(** [type NamedRecord struct]: a DNS entry and its name. *)
Record NamedRecord := mkNamedRecord {
  NamedRecord_Record : Record_;
  NamedRecord_Name : string;
}.

(** [type Transport string]. *)
Definition Transport := string.

(** [type Duration time.Duration], in nanoseconds. *)
Definition Duration := Z.

(** [type Nameserver struct]. *)
Record Nameserver := mkNameserver {
  Nameserver_Address : string;
  Nameserver_Timeout : Duration;
  Nameserver_Transport : Transport;
}.

(** [Nameserver.Client]. *)
Definition Nameserver_Client (nameserver : Nameserver) : Client :=
  mkClient (Nameserver_Transport nameserver) (Nameserver_Timeout nameserver).

(** [type Config struct].  [Records] is a Go [map[string]*Record]: the map may
    be nil (outer [None]), and a key may hold a nil pointer (inner [None]). *)
Record Config := mkConfig {
  Port : Z;
  Config_Name : string;
  Secret : string;
  Records : option (gmap string (option Record_));
  Nameservers : list Nameserver;
}.

(** [config.Records[key]]: indexing yields the nil pointer for a missing key
    and for a nil map. *)
Definition Records_index (records : option (gmap string (option Record_)))
    (key : string) : option Record_ :=
  match records with
  | None => None
  | Some m => default None (m !! key)
  end.

(** ** [Transport.UnmarshalJSON] *)

Inductive error :=
| JSONError (msg : string)
| IllegalTransport (s : string).

Section UnmarshalJSON.

(** [json.Unmarshal(b, &s)] for a string [s] that starts empty: the decoded
    string, or the decoder's error. *)
Variable json_Unmarshal_string : string → error + string.

(** The new value of [*e] and the returned error ([None] is nil).  On an error
    [*e] keeps its value. *)
Definition Transport_UnmarshalJSON (e : Transport) (b : string)
    : Transport * option error :=
  match json_Unmarshal_string b with
  | inl err => (e, Some err)
  | inr s =>
      if decide (s = EmptyString) then ("tcp", None)
      else if decide (s = "tcp" ∨ s = "udp") then (s, None)
      else (e, Some (IllegalTransport s))
  end.

End UnmarshalJSON.

(** ** Effects: the network, the response writer, panics *)

(** One call of [c.Exchange(m, address)]: the client, the address, the message
    sent, and what came back. *)
Record Attempt := mkAttempt {
  a_client : Client;
  a_address : string;
  a_sent : Msg;
  a_result : ExchangeResult;
}.

(** How a handler ends: it returns, or a [panic] unwinds it. *)
Inductive Outcome (A : Type) :=
| Returned (a : A)
| Panicked.
Arguments Returned {A} a.
Arguments Panicked {A}.

Section Server.

(** The state of everything outside the process, and the network's answer to
    one exchange in that state. *)
Context {World : Type}.
Variable Exchange : Client → Msg → string → World → ExchangeResult * World.

(** [dns.NewRR]: the record a line of zone-file text stands for, or an error. *)
Variable NewRR : string → option RR.

(** [var Host]: the IPv4 address of the interface, as text. *)
Variable Host : string.

(** What a handler can change: the world, the trace of exchanges it made (in
    the order made), and the messages it gave to [response.WriteMsg]. *)
Record Env := mkEnv {
  world : World;
  exchanges : list Attempt;
  written : list Msg;
}.

Definition M (A : Type) : Type := Env → Outcome A * Env.

Global Instance M_ret : MRet M := λ A a env, (Returned a, env).

Global Instance M_bind : MBind M := λ A B k m env,
  match m env with
  | (Returned a, env') => k a env'
  | (Panicked, env') => (Panicked, env')
  end.

Definition panic {A} : M A := λ env, (Panicked, env).

(** [c.Exchange(m, address)], recorded in the trace. *)
Definition exchange (c : Client) (m : Msg) (address : string) : M ExchangeResult :=
  λ env,
    let '(res, w) := Exchange c m address (world env) in
    (Returned res,
     mkEnv w (exchanges env ++ [mkAttempt c address m res]) (written env)).

(** [response.WriteMsg(m)]. *)
Definition WriteMsg (m : Msg) : M unit :=
  λ env, (Returned (), mkEnv (world env) (exchanges env) (written env ++ [m])).

(** [MustRR] returns a [dns.RR] from a template or panics. *)
Definition MustRR (template : string) : M RR :=
  match NewRR template with
  | Some value => mret value
  | None => panic
  end.

(** ** The pass-through handler *)

(** [WriteError] puts a server failure message on the response. *)
Definition WriteError (request : Msg) : M unit :=
  let message := new_Msg in
  let message := SetReply message request in
  let message := set_Compress false message in
  let message := set_RecursionAvailable true message in
  let message := SetRcode message request RcodeServerFailure in
  WriteMsg message.

(** The loop of [RecurseHandler] over [config.Nameservers]; [true] when the
    handler returned from inside the loop. *)
Fixpoint RecurseHandler_loop (request : Msg) (nameservers : list Nameserver) : M bool :=
  match nameservers with
  | [] => mret false
  | nameserver :: rest =>
      let c := mkClient (Nameserver_Transport nameserver)
                        (Nameserver_Timeout nameserver) in
      res ← exchange c request (Nameserver_Address nameserver);
      match usable res with
      | Some r =>
          let r := set_Compress false r in
          WriteMsg r ;; mret true
      | None => RecurseHandler_loop request rest
      end
  end.

(** [RecurseHandler] queries the next responding Nameserver. *)
Definition RecurseHandler (config : Config) (request : Msg) : M unit :=
  returned ← RecurseHandler_loop request (Nameservers config);
  if returned : bool then mret () else WriteError request.

(** ** Batch resolution *)

(** The first loop of [Resolve]: [targets[question.Name] = question]. *)
Definition Resolve_targets (questions : list Question) : gmap string Question :=
  foldl (λ targets question, <[Q_Name question := question]> targets) ∅ questions.

(** The loop [delete(targets, answer.Header().Name)] over the answers. *)
Definition delete_answered (answers : list RR) (targets : gmap string Question)
    : gmap string Question :=
  foldl (λ targets answer, delete (Name (Header answer)) targets) targets answers.

(** One turn of the loop over the nameservers, past the [break] test.  The
    source collects the pending questions in [unknown] and then sends
    [questions]. *)
Definition Resolve_attempt (questions : list Question) (nameserver : Nameserver)
    (targets : gmap string Question) (answers : list RR)
    : M (gmap string Question * list RR) :=
  let unknown := (map_to_list targets).*2 in
  let r := new_Msg in
  let r := set_Question questions r in
  let c := Nameserver_Client nameserver in
  res ← exchange c r (Nameserver_Address nameserver);
  match usable res with
  | Some r => mret (delete_answered (Answer r) targets, answers ++ Answer r)
  | None => mret (targets, answers)
  end.

Fixpoint Resolve_loop (questions : list Question) (nameservers : list Nameserver)
    (targets : gmap string Question) (answers : list RR) : M (list RR) :=
  match nameservers with
  | [] => mret answers
  | nameserver :: rest =>
      if decide (size targets = 0) then mret answers
      else
        st ← Resolve_attempt questions nameserver targets answers;
        Resolve_loop questions rest st.1 st.2
  end.

(** [Resolve] a list of questions. *)
Definition Resolve (config : Config) (questions : list Question) : M (list RR) :=
  Resolve_loop questions (Nameservers config) (Resolve_targets questions) [].

(** ** The handler of the owned zone *)

(** [fmt.Sprintf("%s %d IN A %s", name, ttl, address)]. *)
Definition A_template (name : string) (ttl : Z) (address : string) : string :=
  name +:+ " " +:+ pretty ttl +:+ " IN A " +:+ address.

(** [fmt.Sprintf("%s 3600 IN NS %s.", name, host)]. *)
Definition NS_template (name host : string) : string :=
  name +:+ " 3600 IN NS " +:+ host +:+ ".".

(** [strings.TrimSuffix(question.Name, fmt.Sprintf(".%s", config.Name))]. *)
Definition lookup_key (config : Config) (question : Question) : string :=
  TrimSuffix (Q_Name question) ("." +:+ Config_Name config).

(** The loop of [RequestHandler] over [request.Question]. *)
Fixpoint RequestHandler_split (config : Config) (questions : list Question)
    (answers : list RR) (unknown : list Question) : M (list RR * list Question) :=
  match questions with
  | [] => mret (answers, unknown)
  | question :: rest =>
      let key := lookup_key config question in
      let record := Records_index (Records config) key in
      match record with
      | Some record =>
          rr ← MustRR (A_template (Q_Name question) (TTL record) (Address record));
          RequestHandler_split config rest (answers ++ [rr]) unknown
      | None =>
          RequestHandler_split config rest answers (unknown ++ [question])
      end
  end.

(** [RequestHandler] looks up entries in a Config. *)
Definition RequestHandler (config : Config) (request : Msg) : M unit :=
  let message := new_Msg in
  st ← RequestHandler_split config (Questions request) [] [];
  let '(answers, unknown) := st in
  answers ← (if decide (0 < length unknown)
             then recursed ← Resolve config unknown; mret (answers ++ recursed)
             else mret answers);
  let message := set_Answer answers message in
  ns ← MustRR (NS_template (Config_Name config) Host);
  let message := set_Ns [ns] message in
  let message := set_Authoritative true message in
  let message := set_RecursionAvailable true message in
  let message := SetReply message request in
  WriteMsg message.

End Server.

Arguments mkEnv {World} world exchanges written.
Arguments world {World} e.
Arguments exchanges {World} e.
Arguments written {World} e.

(** The exchanges a handler made, given the trace before and after it. *)
Definition new_exchanges {World} (env env' : @Env World) : list Attempt :=
  drop (length (exchanges env)) (exchanges env').

(** The answer records an exchange contributed. *)
Definition answers_of (a : Attempt) : list RR :=
  match usable (a_result a) with
  | Some r => Answer r
  | None => []
  end.

(** What the split loop does with a question: the stored Record its key leads
    to, if any. *)
Definition stored (config : Config) (question : Question) : option Record_ :=
  Records_index (Records config) (lookup_key config question).

(** ** The administrative interface *)

(** The body of an HTTP response.  [c.JSON] renders its argument when it is
    called; the document is kept as the value it encodes (a JSON object is an
    unordered mapping, [null] stands for a nil map or pointer). *)
Inductive Body :=
| JSON_Records (records : option (gmap string (option Record_)))
| JSON_Record (record : option Record_)
| Text (s : string)
| NoBody.

Record HTTPResponse := mkHTTPResponse {
  status : Z;
  body : Body;
}.

(** The routes of the [/api] group.  A payload is what [c.BindJSON] decoded,
    [None] when it returned an error (it has then answered 400 itself). *)
Inductive Route :=
| LIST
| CREATE (json : option NamedRecord)
| SHOW (address : string)
| UPDATE (address : string) (json : option Record_)
| DESTROY (address : string).

Record AdminRequest := mkAdminRequest {
  Header_Secret : list string;
  route : Route;
}.

(** [c.JSON(code, obj)]. *)
Definition c_JSON (code : Z) (obj : Body) : HTTPResponse := mkHTTPResponse code obj.

(** [config.Records[name] = record]: a write to a nil map panics, which gin's
    recovery middleware turns into a 500. *)
Definition Records_assign (config : Config) (name : string) (record : Record_)
    : Config * HTTPResponse :=
  match Records config with
  | None => (config, mkHTTPResponse 500 NoBody)
  | Some m =>
      (mkConfig (Port config) (Config_Name config) (Secret config)
                (Some (<[name := Some record]> m)) (Nameservers config),
       mkHTTPResponse 200 NoBody)
  end.

(** [delete(config.Records, name)]: a no-op on a nil map. *)
Definition Records_delete (config : Config) (name : string) : Config :=
  mkConfig (Port config) (Config_Name config) (Secret config)
           (delete name <$> Records config) (Nameservers config).

(** The handlers registered in [main], behind [CheckSecret]. *)
Definition api_route (config : Config) (r : Route) : Config * HTTPResponse :=
  match r with
  | LIST => (config, c_JSON 200 (JSON_Records (Records config)))
  | CREATE (Some json) =>
      Records_assign config (NamedRecord_Name json) (NamedRecord_Record json)
  | SHOW address =>
      (config, c_JSON 200 (JSON_Record (Records_index (Records config) address)))
  | UPDATE address (Some json) => Records_assign config address json
  | DESTROY address => (Records_delete config address, mkHTTPResponse 200 NoBody)
  | CREATE None | UPDATE _ None => (config, mkHTTPResponse 400 NoBody)
  end.

(** [CheckSecret] in front of a route. *)
Definition api (config : Config) (request : AdminRequest) : Config * HTTPResponse :=
  if decide (Join (Header_Secret request) EmptyString = Secret config)
  then api_route config (route request)
  else (config, mkHTTPResponse 403 (Text "Incorrect shared secret")).

(** A run of the interface: the requests are served one after the other, each
    on the configuration the previous ones left; the responses in order. *)
Fixpoint api_run (config : Config) (requests : list AdminRequest)
    : Config * list HTTPResponse :=
  match requests with
  | [] => (config, [])
  | request :: rest =>
      let '(config, response) := api config request in
      let '(config, responses) := api_run config rest in
      (config, response :: responses)
  end.

(** ** [MustGetAddress] and [Host] *)

(** [net.IP]: a slice of bytes.  The nil slice is the empty list. *)
Definition IP := list Byte.byte.

Global Instance byte_eq_dec : EqDecision Byte.byte := Byte.byte_eq_dec.

(** [IP.To4], from Go's net package: an address of 4 bytes is its own IPv4
    form; one of 16 bytes has one when it is an IPv4-mapped address (ten zero
    bytes, then [ff ff]), and it is its last 4 bytes; any other has none
    ([None] is the nil slice). *)
Definition To4 (ip : IP) : option IP :=
  if decide (length ip = 4) then Some ip
  else if bool_decide (length ip = 16)
          && forallb (λ b, bool_decide (b = Byte.x00)) (take 10 ip)
          && bool_decide (ip !! 10 = Some Byte.xff)
          && bool_decide (ip !! 11 = Some Byte.xff)
       then Some (drop 12 ip)
       else None.

(** [net.Addr], by the dynamic types the program switches on. *)
Inductive Addr :=
| IPNet (ip : IP) (mask : list Byte.byte)
| IPAddr (ip : IP) (zone : string)
| OtherAddr.

(** The [ip] of one turn of the loop: [var ip net.IP], set by the type switch. *)
Definition Addr_IP (addr : Addr) : IP :=
  match addr with
  | IPNet ip _ => ip
  | IPAddr ip _ => ip
  | OtherAddr => []
  end.

(** [IP.String] on the result of [To4]: dotted decimal for 4 bytes, and the
    text Go prints for a nil address. *)
Definition IP_String (ip : option IP) : string :=
  match ip with
  | Some [a; b; c; d] =>
      pretty (Byte.to_N a) +:+ "." +:+ pretty (Byte.to_N b) +:+ "."
      +:+ pretty (Byte.to_N c) +:+ "." +:+ pretty (Byte.to_N d)
  | _ => "<nil>"
  end.

Section Interfaces.

(** [net.InterfaceByName] and [Interface.Addrs]: [None] is an error. *)
Context {Interface : Type}.
Variable InterfaceByName : string → option Interface.
Variable Addrs : Interface → option (list Addr).

(** The loop over the addresses: the first one with an IPv4 form. *)
Fixpoint MustGetAddress_loop (addrs : list Addr) : option IP :=
  match addrs with
  | [] => None
  | addr :: rest =>
      let ip := Addr_IP addr in
      match To4 ip with
      | Some _ => Some ip
      | None => MustGetAddress_loop rest
      end
  end.

(** [MustGetAddress] returns the IPv4 address for an interface or panics.
    The interface it asks for is [en0], whatever [interfaceName] is. *)
Definition MustGetAddress (interfaceName : string) : Outcome IP :=
  match InterfaceByName "en0" with
  | Some iface =>
      match Addrs iface with
      | Some addrs =>
          match MustGetAddress_loop addrs with
          | Some ip => Returned ip
          | None => Panicked
          end
      | None => Panicked
      end
  | None => Panicked
  end.

(** [var Host = MustGetAddress("en0").To4().String()]. *)
Definition Host_value : Outcome string :=
  match MustGetAddress "en0" with
  | Returned ip => Returned (IP_String (To4 ip))
  | Panicked => Panicked
  end.

End Interfaces.

(** ** A concrete environment, for examples *)

Module Example.

(** Decimal digits to a number, as a TTL field is read. *)
Fixpoint digits (s : string) (acc : Z) : option Z :=
  match s with
  | EmptyString => Some acc
  | String c rest =>
      let n := Z.of_nat (Ascii.nat_of_ascii c) in
      if decide (48 ≤ n ≤ 57)%Z then digits rest (10 * acc + (n - 48))%Z else None
  end.

(** A parser for the two shapes of line the server writes:
    [name ttl IN A address] and [name ttl IN NS target]. *)
Definition NewRR (line : string) : option RR :=
  match String.words line with
  | [name; ttl; cls; type; data] =>
      if decide (cls = "IN" ∧ ttl ≠ EmptyString) then
        ttl ← digits ttl 0;
        if decide (type = "A") then
          Some (mkRR (mkRR_Header name TypeA ClassINET ttl) data)
        else if decide (type = "NS") then
          Some (mkRR (mkRR_Header name TypeNS ClassINET ttl) data)
        else None
      else None
  | _ => None
  end.

(** [dns.NewRR] as the library reads a TTL: the digits are accumulated in an
    unsigned 32-bit integer, so what comes back is the number written, modulo
    2^32. *)
Definition NewRR_uint32 (line : string) : option RR :=
  (λ rr, mkRR (mkRR_Header (Name (Header rr)) (Rrtype (Header rr))
                 (Class (Header rr)) (Ttl (Header rr) `mod` 2 ^ 32))
              (Rdata rr))
    <$> NewRR line.

Definition Host : string := "192.168.0.2".

Definition A_RR (name address : string) : RR :=
  mkRR (mkRR_Header name TypeA ClassINET 60) address.

(** The reply an upstream gives to [m] with answer section [answers]. *)
Definition reply (m : Msg) (answers : list RR) : Msg :=
  set_Answer answers (set_RecursionAvailable true (SetReply new_Msg m)).

(** A network of four upstreams; the world counts the exchanges made.
    - [ns-a:53] knows only [a.example.com.], and answers with two addresses;
    - [ns-b:53] knows only [b.example.com.], and its replies come back truncated;
    - [ns-c:53] answers [c.test.] whatever was asked;
    - every other address times out. *)
Definition Exchange (c : Client) (m : Msg) (address : string) (w : nat)
    : ExchangeResult * nat :=
  (if decide (address = "ns-a:53") then
     ExchangeOk (reply m [A_RR "a.example.com." "192.0.2.1"; A_RR "a.example.com." "192.0.2.2"])
   else if decide (address = "ns-b:53") then
     ExchangeTruncated (reply m [A_RR "b.example.com." "192.0.2.3"])
   else if decide (address = "ns-c:53") then
     ExchangeOk (reply m [A_RR "c.test." "192.0.2.4"])
   else ExchangeFailed "i/o timeout",
   S w).

Definition ns (address : string) : Nameserver :=
  mkNameserver address 2000000000%Z "udp".

Definition records : gmap string (option Record_) :=
  {[ "www" := Some (mkRecord "10.0.0.1" 300) ]}.

Definition config (nameservers : list Nameserver) : Config :=
  mkConfig 53 "example.com." "s3cret" (Some records) nameservers.

Definition query (names : list string) : Msg :=
  set_Question ((λ name, mkQuestion name TypeA ClassINET) <$> names)
    (set_Hdr (mkMsgHdr 4660 false OpcodeQuery false false true false false false false 0)
       new_Msg).

Definition env0 : @Env nat := mkEnv 0 [] [].

(** JSON string literals without escapes, and [null] (which leaves a Go
    string as it is): enough of [json.Unmarshal] for examples. *)
Definition quote : Ascii.ascii := Ascii.ascii_of_nat 34.

Definition json_Unmarshal_string (b : string) : error + string :=
  if decide (b = "null") then inr EmptyString
  else match b with
       | String c rest =>
           match String.rev rest with
           | String c' inner =>
               if decide (c = quote ∧ c' = quote) then inr (String.rev inner)
               else inl (JSONError "cannot unmarshal into Go value of type string")
           | EmptyString => inl (JSONError "unexpected end of JSON input")
           end
       | EmptyString => inl (JSONError "unexpected end of JSON input")
       end.

(** A question for the address of [name]. *)
Definition q (name : string) : Question := mkQuestion name TypeA ClassINET.

(** The JSON string literal for [s]. *)
Definition quoted (s : string) : string :=
  String quote (s +:+ String quote EmptyString).

(** An interface [en0] with an IPv6 address listed before its IPv4 one. *)
Definition en0_addrs : list Addr :=
  [ IPAddr [Byte.xfe; Byte.x80; Byte.x00; Byte.x00; Byte.x00; Byte.x00; Byte.x00; Byte.x00;
            Byte.x00; Byte.x00; Byte.x00; Byte.x00; Byte.x00; Byte.x00; Byte.x00; Byte.x01]
           "en0";
    IPNet [Byte.xc0; Byte.xa8; Byte.x00; Byte.x02]
          [Byte.xff; Byte.xff; Byte.xff; Byte.x00] ].

Definition InterfaceByName (name : string) : option () :=
  if decide (name = "en0") then Some () else None.

Definition Addrs (iface : ()) : option (list Addr) := Some en0_addrs.

End Example.

(** * Properties *)

Section Properties.

Context {World : Type}.
Variable Exchange : Client → Msg → string → World → ExchangeResult * World.
Variable NewRR : string → option RR.
Variable Host : string.

Implicit Types (env : @Env World) (request : Msg) (config : Config).

(** ** The vocabulary of the statements *)

(** An exchange that gave the program nothing to go on with. *)
Definition failed (a : Attempt) : Prop := usable (a_result a) = None.

(** What the pass-through handler sends to a nameserver. *)
Definition forwarded (request : Msg) (nameserver : Nameserver) : Client * string * Msg :=
  (mkClient (Nameserver_Transport nameserver) (Nameserver_Timeout nameserver),
   Nameserver_Address nameserver, request).

Definition sent (a : Attempt) : Client * string * Msg :=
  (a_client a, a_address a, a_sent a).

(** The message [WriteError] writes for [request]. *)
Definition server_failure (request : Msg) : Msg :=
  SetRcode (set_RecursionAvailable true (set_Compress false (SetReply new_Msg request)))
           request RcodeServerFailure.

(** The owner names of a list of records. *)
Definition owners (rrs : list RR) : list string := (λ rr, Name (Header rr)) <$> rrs.

(** The message [Resolve] sends: an empty message around [questions]. *)
Definition batch_query (questions : list Question) : Msg :=
  set_Question questions new_Msg.

(** The attempt [Resolve] makes at [nameserver] in [env]. *)
Definition batch_attempt (questions : list Question) (nameserver : Nameserver)
    env : Attempt :=
  mkAttempt (Nameserver_Client nameserver) (Nameserver_Address nameserver)
    (batch_query questions)
    (Exchange (Nameserver_Client nameserver) (batch_query questions)
       (Nameserver_Address nameserver) (world env)).1.

(** The questions the record table resolves, and the others. *)
Definition resolved (config : Config) (questions : list Question) : list Question :=
  filter (λ q, is_Some (stored config q)) questions.

Definition unresolved (config : Config) (questions : list Question) : list Question :=
  filter (λ q, stored config q = None) questions.

(** [rr] is the record synthesized for [q]: the one the line
    [<q's name> <TTL> IN A <Address>], built from the stored Record, stands for. *)
Definition synthesized (config : Config) (q : Question) (rr : RR) : Prop :=
  ∃ record,
    Records_index (Records config)
      (TrimSuffix (Q_Name q) ("." +:+ Config_Name config)) = Some record
    ∧ NewRR (A_template (Q_Name q) (TTL record) (Address record)) = Some rr.

(** The A record with the given owner, TTL and address. *)
Definition A_record (name : string) (ttl : Z) (address : string) : RR :=
  mkRR (mkRR_Header name TypeA ClassINET ttl) address.

(** The answer to a question whose key leads to a stored Record: owner the
    question name, address the stored one, TTL the stored one in 32 bits. *)
Definition answer_for (config : Config) (q : Question) : option RR :=
  (λ record, A_record (Q_Name q) (TTL record `mod` 2 ^ 32) (Address record))
    <$> Records_index (Records config)
          (TrimSuffix (Q_Name q) ("." +:+ Config_Name config)).

(** The parser reads back, field by field and with the TTL in 32 bits, the
    lines built for these questions. *)
Definition reads_back (config : Config) (questions : list Question) : Prop :=
  ∀ q record, q ∈ questions → stored config q = Some record →
    NewRR (A_template (Q_Name q) (TTL record) (Address record))
    = Some (A_record (Q_Name q) (TTL record `mod` 2 ^ 32) (Address record)).

(** The message [RequestHandler] writes, from its parts. *)
Definition assembled (request : Msg) (answers : list RR) (ns : RR) : Msg :=
  SetReply
    (set_RecursionAvailable true
       (set_Authoritative true (set_Ns [ns] (set_Answer answers new_Msg))))
    request.

(** ** Pass-through recursion *)

Lemma new_exchanges_app env env' tried :
  exchanges env' = exchanges env ++ tried → new_exchanges env env' = tried.
Proof. intros H. unfold new_exchanges. rewrite H. by rewrite drop_app_length. Qed.

Lemma RecurseHandler_loop_spec request nameservers env :
  ∃ tried,
    let run := RecurseHandler_loop Exchange request nameservers env in
    exchanges run.2 = exchanges env ++ tried
    ∧ sent <$> tried = forwarded request <$> take (length tried) nameservers
    ∧ match run.1 with
      | Returned true =>
          ∃ before a r, tried = before ++ [a] ∧ Forall failed before
            ∧ usable (a_result a) = Some r
            ∧ written run.2 = written env ++ [set_Compress false r]
      | Returned false =>
          length tried = length nameservers ∧ Forall failed tried
          ∧ written run.2 = written env
      | Panicked => False
      end.
Proof.
  revert env. induction nameservers as [|nameserver rest IH]; intros env.
  - exists []. simpl. rewrite app_nil_r. done.
  - cbn [RecurseHandler_loop]. unfold mbind, M_bind, exchange.
    destruct (Exchange _ request _ (world env)) as [res w] eqn:HX.
    destruct (usable res) as [r|] eqn:Hres.
    + eexists [_]. cbn. split; [done|]. split; [done|].
      exists [], (mkAttempt (mkClient (Nameserver_Transport nameserver)
                   (Nameserver_Timeout nameserver)) (Nameserver_Address nameserver) request res), r.
      done.
    + match goal with |- context [RecurseHandler_loop _ _ _ ?e] =>
        destruct (IH e) as (tried & Hex & Hsent & Hout) end.
      cbn in Hex, Hsent, Hout.
      eexists (_ :: tried). cbn.
      split. { rewrite Hex. cbn. by rewrite <- app_assoc. }
      split. { cbn. by rewrite Hsent. }
      destruct (RecurseHandler_loop _ _ _ _).1 as [[|]|]; [| |done].
      * destruct Hout as (before & a & r & -> & Hb & Ha & Hw).
        eexists (_ :: before), a, r. repeat split; try done.
        constructor; [exact Hres|done].
      * destruct Hout as (Hlen & Hf & Hw). repeat split; try done.
        -- cbn. by rewrite Hlen.
        -- constructor; [exact Hres|done].
Qed.

Lemma set_Compress_false_id (r : Msg) : Compress r = false → set_Compress false r = r.
Proof. destruct r as [h c qs an ns ex]. cbn. by intros ->. Qed.

Lemma WriteError_spec request env :
  WriteError request env
  = (Returned (), mkEnv (world env) (exchanges env) (written env ++ [server_failure request])).
Proof. reflexivity. Qed.

Lemma server_failure_fields request :
  Rcode (Hdr (server_failure request)) = RcodeServerFailure
  ∧ Questions (server_failure request) = take 1 (Questions request)
  ∧ Compress (server_failure request) = false
  ∧ RecursionAvailable (Hdr (server_failure request)) = true.
Proof.
  unfold server_failure, SetRcode, SetReply.
  destruct (Questions request) as [|q qs]; cbn; done.
Qed.

(** What [RecurseHandler] did, from what its loop did. *)
Lemma RecurseHandler_spec config request env :
  ∃ tried,
    let run := RecurseHandler Exchange config request env in
    exchanges run.2 = exchanges env ++ tried
    ∧ sent <$> tried = forwarded request <$> take (length tried) (Nameservers config)
    ∧ ((∃ before a r, tried = before ++ [a] ∧ Forall failed before
          ∧ usable (a_result a) = Some r
          ∧ written run.2 = written env ++ [set_Compress false r])
       ∨ (length tried = length (Nameservers config) ∧ Forall failed tried
          ∧ written run.2 = written env ++ [server_failure request])).
Proof.
  destruct (RecurseHandler_loop_spec request (Nameservers config) env)
    as (tried & Hex & Hsent & Hout).
  exists tried. unfold RecurseHandler, mbind, M_bind. cbn in Hex, Hout.
  destruct (RecurseHandler_loop Exchange request (Nameservers config) env)
    as [[[|]|] env1]; cbn in Hex, Hout; cbv beta iota zeta; [| |done].
  - split; [done|]. split; [done|]. by left.
  - rewrite WriteError_spec. cbn [fst snd exchanges written].
    destruct Hout as (Hlen & Hf & Hw).
    split; [done|]. split; [done|]. right. by rewrite Hw.
Qed.

(** C4.  Pass-through recursion.  The exchanges go to the configured
    nameservers in their configured order, from the first one on, each with
    the nameserver's transport, timeout and address and with the original
    query message itself.  Either the last exchange made is usable (a reply
    with no error, or one that came back truncated) and all the exchanges
    before it failed: then the one message written to the client is that
    upstream's reply, with the same header, question, answer, authority and
    additional sections and the encoder's compression switch off (the reply
    itself whenever that switch was off in it, as it is in a message decoded
    from the wire), and no nameserver after it is tried.  Or every configured
    nameserver was tried and failed, and the message written is the failure
    response.  In particular an exchange that is usable is the last one. *)
Theorem RecurseHandler_first_success config request env :
  let env' := (RecurseHandler Exchange config request env).2 in
  let tried := new_exchanges env env' in
  exchanges env' = exchanges env ++ tried
  ∧ sent <$> tried = forwarded request <$> take (length tried) (Nameservers config)
  ∧ ((∃ before a r,
        tried = before ++ [a]
        ∧ Forall failed before
        ∧ usable (a_result a) = Some r
        ∧ written env' = written env ++ [set_Compress false r]
        ∧ Hdr (set_Compress false r) = Hdr r
        ∧ Questions (set_Compress false r) = Questions r
        ∧ Answer (set_Compress false r) = Answer r
        ∧ Ns (set_Compress false r) = Ns r
        ∧ Extra (set_Compress false r) = Extra r
        ∧ (Compress r = false → written env' = written env ++ [r]))
     ∨ (length tried = length (Nameservers config)
        ∧ Forall failed tried
        ∧ written env' = written env ++ [server_failure request]))
  ∧ ∀ i a r, tried !! i = Some a → usable (a_result a) = Some r →
      S i = length tried
      ∧ written env' = written env ++ [set_Compress false r]
      ∧ (Compress r = false → written env' = written env ++ [r]).
Proof.
  cbv zeta.
  destruct (RecurseHandler_spec config request env) as (tried & Hex & Hsent & Hout).
  cbv zeta in Hex, Hsent, Hout.
  rewrite (new_exchanges_app _ _ _ Hex).
  split; [done|]. split; [done|].
  split.
  - destruct Hout as [(before & a & r & -> & Hb & Ha & Hw)|Hall]; [left|by right].
    exists before, a, r. repeat (split; [done|]).
    intros Hc. by rewrite set_Compress_false_id in Hw.
  - intros i a r Hi Ha.
    destruct Hout as [(before & a' & r' & -> & Hb & Ha' & Hw)|(_ & Hf & _)].
    + apply lookup_app_Some in Hi as [Hi|[Hlen Hi]].
      * rewrite Forall_forall in Hb. specialize (Hb a).
        unfold failed in Hb. rewrite Hb in Ha; [done|].
        apply list_elem_of_lookup. eauto.
      * apply list_lookup_singleton_Some in Hi as [Hi ->].
        rewrite Ha in Ha'. injection Ha' as <-.
        split. { rewrite length_app. cbn. lia. }
        split; [done|].
        intros Hc. by rewrite set_Compress_false_id in Hw.
    + rewrite Forall_forall in Hf. specialize (Hf a).
      unfold failed in Hf. rewrite Hf in Ha; [done|].
      apply list_elem_of_lookup. eauto.
Qed.

(** C5, as the code has it.  When every exchange the pass-through handler made
    failed (none is made when no nameserver is configured), the one message
    written to the client has rcode server failure, compression off and
    recursion-available set; its question section is the FIRST question of the
    query, which is the whole question section when the query has at most one
    question. *)
Theorem RecurseHandler_all_failed config request env :
  let env' := (RecurseHandler Exchange config request env).2 in
  Forall failed (new_exchanges env env') →
  ∃ m, written env' = written env ++ [m]
    ∧ Rcode (Hdr m) = RcodeServerFailure
    ∧ Questions m = take 1 (Questions request)
    ∧ (length (Questions request) ≤ 1 → Questions m = Questions request)
    ∧ Compress m = false
    ∧ RecursionAvailable (Hdr m) = true
    ∧ (Nameservers config = [] → exchanges env' = exchanges env).
Proof.
  cbv zeta.
  destruct (RecurseHandler_spec config request env) as (tried & Hex & Hsent & Hout).
  cbv zeta in Hex, Hsent, Hout.
  rewrite (new_exchanges_app _ _ _ Hex). intros Hall.
  destruct Hout as [(before & a & r & -> & _ & Ha & _)|(Hlen & _ & Hw)].
  - apply Forall_app in Hall as [_ Hall]. rewrite Forall_singleton in Hall.
    unfold failed in Hall. by rewrite Hall in Ha.
  - exists (server_failure request).
    destruct (server_failure_fields request) as (H1 & H2 & H3 & H4).
    split; [done|]. split; [done|]. split; [done|].
    split. { intros Hle. rewrite H2. apply take_ge. done. }
    split; [done|]. split; [done|].
    intros Hnil. rewrite Hnil in Hlen. destruct tried; [|done].
    by rewrite app_nil_r in Hex.
Qed.

(** ** Batch resolution *)

Lemma delete_answered_lookup (answers : list RR) (targets : gmap string Question)
    (name : string) :
  delete_answered answers targets !! name
  = if decide (name ∈ owners answers) then None else targets !! name.
Proof.
  revert targets. induction answers as [|rr rest IH]; intros targets.
  - cbn. case_decide as H; [|done]. by apply elem_of_nil in H.
  - change (delete_answered (rr :: rest) targets)
      with (delete_answered rest (delete (Name (Header rr)) targets)).
    rewrite IH. cbn [owners fmap list_fmap]. fold (owners rest).
    destruct (decide (name = Name (Header rr))) as [->|Hne].
    + rewrite lookup_delete_eq.
      rewrite (decide_True (P := _ ∈ _ :: _)) by apply list_elem_of_here.
      by case_decide.
    + rewrite lookup_delete_ne by done.
      destruct (decide (name ∈ owners rest)) as [Hin|Hnin].
      * rewrite decide_True; [done|]. by apply list_elem_of_further.
      * rewrite decide_False; [done|]. intros Hin.
        apply elem_of_cons in Hin as [?|?]; done.
Qed.

Lemma Resolve_attempt_spec questions nameserver targets answers env :
  let a := batch_attempt questions nameserver env in
  Resolve_attempt Exchange questions nameserver targets answers env
  = (Returned (match usable (a_result a) with
               | Some r => (delete_answered (Answer r) targets, answers ++ Answer r)
               | None => (targets, answers)
               end),
     mkEnv (Exchange (Nameserver_Client nameserver) (batch_query questions)
              (Nameserver_Address nameserver) (world env)).2
           (exchanges env ++ [a]) (written env)).
Proof.
  unfold Resolve_attempt, batch_attempt, batch_query, mbind, M_bind, exchange.
  cbv zeta.
  destruct (Exchange _ _ _ (world env)) as [res w]. cbn.
  by destruct (usable res).
Qed.


(** The whole loop: what it returns and what it sends. *)
Lemma Resolve_loop_spec questions nameservers targets answers env :
  ∃ tried,
    let run := Resolve_loop Exchange questions nameservers targets answers env in
    run.1 = Returned (answers ++ concat (answers_of <$> tried))
    ∧ exchanges run.2 = exchanges env ++ tried
    ∧ written run.2 = written env
    ∧ Forall (λ a, a_sent a = batch_query questions) tried.
Proof.
  revert targets answers env.
  induction nameservers as [|nameserver rest IH]; intros targets answers env.
  - exists []. cbn. by rewrite !app_nil_r.
  - cbn [Resolve_loop]. case_decide as Hsz.
    + exists []. cbn. by rewrite !app_nil_r.
    + unfold mbind, M_bind. rewrite Resolve_attempt_spec.
      cbv beta iota zeta.
      set (a := batch_attempt questions nameserver env).
      match goal with |- context [Resolve_loop _ _ _ ?t ?an ?e] =>
        destruct (IH t an e) as (tried & Hout & Hex & Hw & Hs) end.
      cbv zeta in Hout, Hex, Hw, Hs. cbn [exchanges written] in Hex, Hw.
      exists (a :: tried). cbv zeta.
      split.
      { rewrite Hout. f_equal. cbn [fmap list_fmap concat]. fold (fmap (M:=list) answers_of tried).
        unfold answers_of at 2. destruct (usable (a_result a)); cbn [fst snd].
        - by rewrite <- app_assoc.
        - done. }
      split. { rewrite Hex. by rewrite <- app_assoc. }
      split; [done|].
      constructor; [done|done].
Qed.

Lemma Resolve_spec config questions env :
  ∃ tried,
    let run := Resolve Exchange config questions env in
    run.1 = Returned (concat (answers_of <$> tried))
    ∧ exchanges run.2 = exchanges env ++ tried
    ∧ written run.2 = written env
    ∧ Forall (λ a, a_sent a = batch_query questions) tried.
Proof. apply (Resolve_loop_spec questions (Nameservers config) _ []). Qed.

(** ** The handler of the owned zone *)

Lemma MustRR_Some template rr env :
  NewRR template = Some rr → MustRR NewRR template env = (Returned rr, env).
Proof. unfold MustRR. by intros ->. Qed.

Lemma MustRR_None template env :
  NewRR template = None → @MustRR World NewRR template env = (Panicked, env).
Proof. unfold MustRR. by intros ->. Qed.

Lemma RequestHandler_split_spec config questions answers unknown env :
  match RequestHandler_split NewRR config questions answers unknown env with
  | (Returned (answers', unknown'), env') =>
      env' = env
      ∧ unknown' = unknown ++ unresolved config questions
      ∧ ∃ new, answers' = answers ++ new
               ∧ Forall2 (synthesized config) (resolved config questions) new
  | (Panicked, env') => env' = env
  end.
Proof.
  revert answers unknown.
  induction questions as [|q rest IH]; intros answers unknown.
  - cbn. split; [done|]. split; [by rewrite app_nil_r|].
    exists []. split; [by rewrite app_nil_r|]. constructor.
  - cbn [RequestHandler_split]. cbv zeta.
    unfold resolved, unresolved. rewrite !filter_cons.
    fold (resolved config rest) (unresolved config rest).
    change (Records_index (Records config) (lookup_key config q))
      with (stored config q).
    destruct (stored config q) as [record|] eqn:Hst.
    + rewrite (decide_True (P := is_Some _)) by eauto.
      rewrite (decide_False (P := Some _ = None)) by done.
      unfold mbind, M_bind.
      destruct (NewRR (A_template (Q_Name q) (TTL record) (Address record)))
        as [rr|] eqn:Hrr.
      * rewrite (MustRR_Some _ rr) by done.
        specialize (IH (answers ++ [rr]) unknown).
        destruct (RequestHandler_split NewRR config rest (answers ++ [rr]) unknown env)
          as [[[answers' unknown']|] env']; [|done].
        destruct IH as (-> & -> & new & -> & Hnew).
        split; [done|]. split; [done|].
        exists (rr :: new). split; [by rewrite <- app_assoc|].
        constructor; [|done]. exists record. done.
      * by rewrite MustRR_None.
    + rewrite (decide_False (P := is_Some _)) by (intros [? ?]; done).
      rewrite (decide_True (P := None = None)) by done.
      specialize (IH answers (unknown ++ [q])).
      destruct (RequestHandler_split NewRR config rest answers (unknown ++ [q]) env)
        as [[[answers' unknown']|] env']; [|done].
      destruct IH as (-> & -> & new & -> & Hnew).
      split; [done|]. split; [by rewrite <- app_assoc|].
      exists new. done.
Qed.

Lemma assembled_fields request answers ns :
  Answer (assembled request answers ns) = answers
  ∧ Ns (assembled request answers ns) = [ns]
  ∧ Authoritative (Hdr (assembled request answers ns)) = true
  ∧ RecursionAvailable (Hdr (assembled request answers ns)) = true
  ∧ Compress (assembled request answers ns) = false.
Proof.
  unfold assembled, SetReply. destruct (Questions request); cbn; done.
Qed.

(** When the parser accepts every line the loop builds, the loop returns. *)
Lemma RequestHandler_split_returns config questions answers unknown env :
  (∀ q record, q ∈ questions → stored config q = Some record →
     is_Some (NewRR (A_template (Q_Name q) (TTL record) (Address record)))) →
  ∃ st, RequestHandler_split NewRR config questions answers unknown env
        = (Returned st, env).
Proof.
  revert answers unknown.
  induction questions as [|q rest IH]; intros answers unknown Hparse.
  - by eexists.
  - cbn [RequestHandler_split]. cbv zeta.
    change (Records_index (Records config) (lookup_key config q))
      with (stored config q).
    destruct (stored config q) as [record|] eqn:Hst.
    + destruct (Hparse q record) as [rr Hrr]; [apply list_elem_of_here|done|].
      unfold mbind, M_bind. rewrite (MustRR_Some _ rr) by done.
      apply IH. intros q' record' Hin. apply Hparse. by apply list_elem_of_further.
    + apply IH. intros q' record' Hin. apply Hparse. by apply list_elem_of_further.
Qed.

(** A run of [RequestHandler]: it asks the upstreams about the unresolved
    questions only, and then writes one message, or panics having written
    none. *)
Lemma RequestHandler_spec config request env out env' :
  RequestHandler Exchange NewRR Host config request env = (out, env') →
  let unknown := unresolved config (Questions request) in
  ∃ tried,
    exchanges env' = exchanges env ++ tried
    ∧ Forall (λ a, a_sent a = batch_query unknown) tried
    ∧ match out with
      | Returned _ =>
          ∃ local ns,
            RequestHandler_split NewRR config (Questions request) [] [] env
            = (Returned (local, unknown), env)
            ∧ Forall2 (synthesized config) (resolved config (Questions request)) local
            ∧ NewRR (NS_template (Config_Name config) Host) = Some ns
            ∧ (unknown = [] → tried = [])
            ∧ (unknown ≠ [] →
               (Resolve Exchange config unknown env).1
               = Returned (concat (answers_of <$> tried)))
            ∧ written env'
              = written env
                ++ [assembled request (local ++ concat (answers_of <$> tried)) ns]
      | Panicked => written env' = written env
      end.
Proof.
  intros Hrun. cbv zeta. unfold RequestHandler in Hrun. cbv zeta in Hrun.
  unfold mbind at 1, M_bind at 1 in Hrun.
  pose proof (RequestHandler_split_spec config (Questions request) [] [] env) as Hsp.
  destruct (RequestHandler_split NewRR config (Questions request) [] [] env)
    as [[[local unknown]|] env1].
  2:{ injection Hrun as <- <-. subst env1. exists []. by rewrite app_nil_r. }
  destruct Hsp as (-> & Hun & new & Hnew & Hsyn). cbn in Hun, Hnew. subst.
  set (unknown := unresolved config (Questions request)) in *.
  unfold mbind at 1, M_bind at 1 in Hrun.
  assert (∃ tried env2,
    (if decide (0 < length unknown)
     then Resolve Exchange config unknown ≫= λ recursed, mret (new ++ recursed)
     else mret new) env
    = (Returned (new ++ concat (answers_of <$> tried)), env2)
    ∧ exchanges env2 = exchanges env ++ tried
    ∧ written env2 = written env
    ∧ Forall (λ a, a_sent a = batch_query unknown) tried
    ∧ (unknown = [] → tried = [])
    ∧ (unknown ≠ [] →
       (Resolve Exchange config unknown env).1 = Returned (concat (answers_of <$> tried))))
    as (tried & env2 & Hres & Hex & Hw & Hsent & Hnil & Hrec).
  { case_decide as Hlen.
    - destruct (Resolve_spec config unknown env) as (tried & Hout & Hex & Hw & Hs).
      cbv zeta in Hout, Hex, Hw, Hs.
      exists tried. unfold mbind, M_bind.
      destruct (Resolve Exchange config unknown env) as [o env2].
      cbn in Hout, Hex, Hw. subst o. exists env2.
      split; [done|]. split; [done|]. split; [done|]. split; [done|].
      split. { intros Hu. rewrite Hu in Hlen. cbn in Hlen. lia. }
      done.
    - exists [], env. cbn. rewrite !app_nil_r.
      split; [done|]. split; [done|]. split; [done|]. split; [done|].
      split; [done|].
      intros Hu. destruct unknown; [done|]. cbn in Hlen. lia. }
  exists tried. rewrite Hres in Hrun. unfold mbind, M_bind in Hrun.
  destruct (NewRR (NS_template (Config_Name config) Host)) as [ns|] eqn:Hns.
  - rewrite (MustRR_Some _ ns) in Hrun by done. cbn in Hrun.
    injection Hrun as <- <-. cbn.
    split; [done|]. split; [done|]. exists new, ns. rewrite Hw. done.
  - rewrite MustRR_None in Hrun by done. injection Hrun as <- <-. done.
Qed.

(** The split loop when the parser reads the lines back. *)
Lemma RequestHandler_split_reads_back config questions answers unknown env :
  reads_back config questions →
  RequestHandler_split NewRR config questions answers unknown env
  = (Returned (answers ++ omap (answer_for config) questions,
               unknown ++ unresolved config questions), env).
Proof.
  revert answers unknown.
  induction questions as [|q rest IH]; intros answers unknown Hrb.
  - cbn. by rewrite !app_nil_r.
  - assert (reads_back config rest) as Hrest.
    { intros q' record Hin. apply Hrb. by apply list_elem_of_further. }
    cbn [RequestHandler_split omap list_omap]. cbv zeta.
    unfold unresolved. rewrite filter_cons. fold (unresolved config rest).
    unfold answer_for at 1.
    change (Records_index (Records config)
              (TrimSuffix (Q_Name q) ("." +:+ Config_Name config)))
      with (stored config q).
    change (Records_index (Records config) (lookup_key config q))
      with (stored config q).
    destruct (stored config q) as [record|] eqn:Hst.
    + rewrite (decide_False (P := Some _ = None)) by done.
      unfold mbind, M_bind.
      rewrite (MustRR_Some _ _ _ (Hrb q record (list_elem_of_here _ _) Hst)).
      rewrite (IH _ _ Hrest). cbn [fmap option_fmap option_map].
      by rewrite <- app_assoc.
    + rewrite (decide_True (P := None = None)) by done.
      rewrite (IH _ _ Hrest). cbn [fmap option_fmap option_map].
      by rewrite <- app_assoc.
Qed.

(** [RequestHandler], step by step. *)
Lemma RequestHandler_cases config request env :
  RequestHandler Exchange NewRR Host config request env
  = match RequestHandler_split NewRR config (Questions request) [] [] env with
    | (Panicked, env1) => (Panicked, env1)
    | (Returned (local, unknown), env1) =>
        let recursion :=
          if decide (0 < length unknown) then Resolve Exchange config unknown env1
          else (Returned [], env1) in
        match recursion.1, NewRR (NS_template (Config_Name config) Host) with
        | Returned recursed, Some ns =>
            (Returned (),
             mkEnv (world recursion.2) (exchanges recursion.2)
                   (written recursion.2 ++ [assembled request (local ++ recursed) ns]))
        | _, _ => (Panicked, recursion.2)
        end
    end.
Proof.
  unfold RequestHandler. cbv zeta. unfold mbind at 1, M_bind at 1.
  destruct (RequestHandler_split NewRR config (Questions request) [] [] env)
    as [[[local unknown]|] env1]; [|done].
  unfold mbind at 1, M_bind at 1.
  case_decide as Hlen.
  - unfold mbind at 1, M_bind at 1.
    destruct (Resolve_spec config unknown env1) as (tried & Hout & _).
    cbv zeta in Hout.
    destruct (Resolve Exchange config unknown env1) as [out env2].
    cbn [fst snd] in Hout |- *. subst out.
    unfold mret at 1, M_ret at 1. unfold mbind, M_bind, MustRR.
    destruct (NewRR (NS_template (Config_Name config) Host)); done.
  - unfold mret at 1, M_ret at 1. unfold mbind, M_bind, MustRR. cbn [fst snd].
    rewrite app_nil_r.
    destruct (NewRR (NS_template (Config_Name config) Host)); done.
Qed.

(** C6, as the code has it.  The key looked up for a question is its name
    with the suffix ["." ++ zone name] trimmed.  The split loop hands
    [dns.NewRR] the line [<question name> <TTL> IN A <Address>] of each
    question whose key leads to a stored Record (a key that is missing, or
    bound to a nil pointer, leads to none).  Where the parser reads these
    lines back field by field, with the TTL in 32 bits, the loop returns, in
    the order of the questions, exactly one answer record for each such
    question: its owner is the original question name, its address the stored
    address, and its TTL the stored TTL reduced modulo 2^32, which is the
    stored TTL itself below 2^32.  The other questions are, in order, the
    unresolved list.  When that list is empty no recursion is run; when it is
    not, what the handler does on the network is the run of batch resolution
    on exactly that list, and the answer section of the message written is
    the synthesized records followed by what that run returned. *)
Theorem RequestHandler_split_lookup config request env :
  let questions := Questions request in
  let unknown := unresolved config questions in
  let run := RequestHandler Exchange NewRR Host config request env in
  reads_back config questions →
  RequestHandler_split NewRR config questions [] [] env
  = (Returned (omap (answer_for config) questions, unknown), env)
  ∧ (∀ q record, q ∈ questions → stored config q = Some record →
       (0 ≤ TTL record < 2 ^ 32)%Z →
       answer_for config q
       = Some (A_record (Q_Name q) (TTL record) (Address record)))
  ∧ (unknown = [] → exchanges run.2 = exchanges env ∧ world run.2 = world env)
  ∧ (unknown ≠ [] →
     exchanges run.2 = exchanges (Resolve Exchange config unknown env).2
     ∧ world run.2 = world (Resolve Exchange config unknown env).2
     ∧ ∀ m, written run.2 = written env ++ [m] →
         ∃ recursed,
           (Resolve Exchange config unknown env).1 = Returned recursed
           ∧ Answer m = omap (answer_for config) questions ++ recursed).
Proof.
  cbv zeta. intros Hrb.
  pose proof (RequestHandler_split_reads_back config (Questions request) [] [] env Hrb)
    as Hsplit.
  cbn [app] in Hsplit.
  split; [exact Hsplit|]. split.
  { intros q record _ Hst Httl. unfold answer_for.
    change (Records_index (Records config)
              (TrimSuffix (Q_Name q) ("." +:+ Config_Name config)))
      with (stored config q).
    rewrite Hst. cbn. by rewrite Z.mod_small. }
  rewrite RequestHandler_cases, Hsplit. cbv zeta.
  set (unknown := unresolved config (Questions request)).
  split.
  - intros ->. cbn.
    destruct (NewRR (NS_template (Config_Name config) Host)); done.
  - intros Hne.
    rewrite decide_True by (destruct unknown; [done|cbn; lia]).
    destruct (Resolve_spec config unknown env) as (tried & Hout & _ & Hw & _).
    cbv zeta in Hout, Hw.
    destruct (Resolve Exchange config unknown env) as [out env2].
    cbn [fst snd] in Hout, Hw |- *. subst out.
    destruct (NewRR (NS_template (Config_Name config) Host)) as [ns|];
      cbn [fst snd exchanges world written].
    + split; [done|]. split; [done|]. intros m Hm.
      rewrite Hw in Hm. apply app_inv_head in Hm. injection Hm as <-.
      eexists. split; [done|].
      by destruct (assembled_fields request
                     (omap (answer_for config) (Questions request)
                      ++ concat (answers_of <$> tried)) ns) as [-> _].
    + split; [done|]. split; [done|]. intros m Hm.
      rewrite Hw in Hm. apply (f_equal length) in Hm.
      rewrite length_app in Hm. cbn in Hm. lia.
Qed.

(** C7.  Every message the owned-zone handler writes has, as answer section,
    the records synthesized by the split loop followed by the records batch
    recursion returned (none when no question was unresolved, in which case
    recursion is not run); as authority section the single record that the
    line [<zone name> 3600 IN NS <Host>.] stands for; the authoritative and
    recursion-available flags set; and compression off. *)
Theorem RequestHandler_assembles config request env m :
  let env' := (RequestHandler Exchange NewRR Host config request env).2 in
  let unknown := unresolved config (Questions request) in
  written env' = written env ++ [m] →
  ∃ local recursed ns,
    RequestHandler_split NewRR config (Questions request) [] [] env
    = (Returned (local, unknown), env)
    ∧ (unknown = [] → recursed = [])
    ∧ (unknown ≠ [] → (Resolve Exchange config unknown env).1 = Returned recursed)
    ∧ Answer m = local ++ recursed
    ∧ NewRR (NS_template (Config_Name config) Host) = Some ns
    ∧ Ns m = [ns]
    ∧ Authoritative (Hdr m) = true
    ∧ RecursionAvailable (Hdr m) = true
    ∧ Compress m = false.
Proof.
  cbv zeta.
  destruct (RequestHandler Exchange NewRR Host config request env) as [out env'] eqn:Hrun.
  cbn [snd]. intros Hm.
  destruct (RequestHandler_spec _ _ _ _ _ Hrun) as (tried & Hex & Hsent & Hout).
  cbv zeta in Hout. destruct out as [u|].
  2:{ rewrite Hout in Hm. apply (f_equal length) in Hm.
      rewrite length_app in Hm. cbn in Hm. lia. }
  destruct Hout as (local & ns & Hsplit & _ & Hns & Hnil & Hrec & Hw).
  rewrite Hw in Hm. apply app_inv_head in Hm. injection Hm as <-.
  destruct (assembled_fields request (local ++ concat (answers_of <$> tried)) ns)
    as (H1 & H2 & H3 & H4 & H5).
  exists local, (concat (answers_of <$> tried)), ns.
  split; [done|]. split. { intros Hu. by rewrite (Hnil Hu). }
  done.
Qed.

(** C2, as the code has it.  Every message the owned-zone handler writes has
    as answer section exactly one record for each question the record table
    resolves (in the order of the questions), followed by all the answer
    records the upstream nameservers returned during the handling, however
    many they are; and its authority section is one NS record for the zone
    naming this server. *)
Theorem RequestHandler_answer_count config request env m :
  let env' := (RequestHandler Exchange NewRR Host config request env).2 in
  let upstream := concat (answers_of <$> new_exchanges env env') in
  written env' = written env ++ [m] →
  (∃ local,
     Answer m = local ++ upstream
     ∧ Forall2 (synthesized config) (resolved config (Questions request)) local)
  ∧ length (Answer m)
    = length (resolved config (Questions request)) + length upstream
  ∧ (upstream = [] → length (Answer m) ≤ length (Questions request))
  ∧ ∃ ns, NewRR (NS_template (Config_Name config) Host) = Some ns ∧ Ns m = [ns].
Proof.
  cbv zeta.
  destruct (RequestHandler Exchange NewRR Host config request env) as [out env'] eqn:Hrun.
  cbn [snd]. intros Hm.
  destruct (RequestHandler_spec _ _ _ _ _ Hrun) as (tried & Hex & Hsent & Hout).
  cbv zeta in Hout. rewrite (new_exchanges_app _ _ _ Hex).
  destruct out as [u|].
  2:{ rewrite Hout in Hm. apply (f_equal length) in Hm.
      rewrite length_app in Hm. cbn in Hm. lia. }
  destruct Hout as (local & ns & Hsplit & Hsyn & Hns & _ & _ & Hw).
  rewrite Hw in Hm. apply app_inv_head in Hm. injection Hm as <-.
  destruct (assembled_fields request (local ++ concat (answers_of <$> tried)) ns)
    as (H1 & H2 & _).
  assert (length (Answer (assembled request (local ++ concat (answers_of <$> tried)) ns))
          = length (resolved config (Questions request))
            + length (concat (answers_of <$> tried))) as Hlen.
  { rewrite H1, length_app. by rewrite (Forall2_length _ _ _ Hsyn). }
  split. { exists local. done. }
  split; [done|].
  split. { intros Hup. rewrite Hlen, Hup. cbn. rewrite Nat.add_0_r.
           unfold resolved. apply length_filter. }
  exists ns. done.
Qed.

End Properties.

(** ** [Transport.UnmarshalJSON] *)

(** C10.  Parsing a Transport from a JSON document that decodes to the string
    [s]: the empty string is accepted and gives ["tcp"]; ["tcp"] and ["udp"]
    are accepted as they are; every other string is refused with an error,
    and the Transport keeps its value. *)
Theorem Transport_UnmarshalJSON_spec (json_Unmarshal_string : string → error + string)
    (e : Transport) (b s : string) :
  json_Unmarshal_string b = inr s →
  (s = EmptyString →
   Transport_UnmarshalJSON json_Unmarshal_string e b = ("tcp", None))
  ∧ (s = "tcp" ∨ s = "udp" →
     Transport_UnmarshalJSON json_Unmarshal_string e b = (s, None))
  ∧ (s ≠ EmptyString → s ≠ "tcp" → s ≠ "udp" →
     Transport_UnmarshalJSON json_Unmarshal_string e b
     = (e, Some (IllegalTransport s))).
Proof.
  intros Hdec. unfold Transport_UnmarshalJSON. rewrite Hdec.
  split; [|split].
  - intros ->. by rewrite decide_True.
  - intros Hs. rewrite decide_False by (by destruct Hs as [-> | ->]).
    by rewrite decide_True.
  - intros H0 H1 H2. rewrite decide_False by done.
    rewrite decide_False by (by intros [? | ?]). done.
Qed.

(** ** The theorems at concrete inputs *)

Module Examples.
Import Example.

(** C1: the batch loop at questions [a.example.com.] and [b.example.com.]
    with the nameservers [ns-a] (which answers the first only) and [ns-b].
    After the first exchange only [b.example.com.] is pending, and the second
    exchange still carries both questions. *)
Theorem Resolve_resends_answered_question :
  let questions := [q "a.example.com."; q "b.example.com."] in
  let config := config [ns "ns-a:53"; ns "ns-b:53"] in
  ∃ first second,
    exchanges (Resolve Exchange config questions env0).2 = [first; second]
    ∧ a_address first = "ns-a:53"
    ∧ a_address second = "ns-b:53"
    ∧ delete_answered (answers_of first) (Resolve_targets questions)
      = {[ "b.example.com." := q "b.example.com." ]}
    ∧ Questions (a_sent second) = [q "a.example.com."; q "b.example.com."]
    ∧ Questions (a_sent second) ≠ [q "b.example.com."].
Proof.
  cbv zeta. eexists _, _. split; [vm_compute; reflexivity|].
  split; [reflexivity|]. split; [reflexivity|].
  split; [by vm_compute|]. split; [reflexivity|]. discriminate.
Qed.

(** C2 as stated fails: one question, for a name with two addresses
    upstream, gets two answer records. *)
Lemma RequestHandler_two_answers_for_one_question :
  let request := query ["a.example.com."] in
  let env' := (RequestHandler Exchange NewRR Host (config [ns "ns-a:53"]) request env0).2 in
  ∃ m, written env' = [m]
    ∧ Questions request = [q "a.example.com."]
    ∧ Answer m = [A_RR "a.example.com." "192.0.2.1"; A_RR "a.example.com." "192.0.2.2"]
    ∧ ¬ (length (Answer m) ≤ length (Questions request)).
Proof.
  cbv zeta. eexists. split; [vm_compute; reflexivity|].
  split; [reflexivity|]. split; [reflexivity|]. cbn. lia.
Qed.

Lemma RequestHandler_answer_count_witness :
  let request := query ["www.example.com."; "a.example.com."] in
  let config := config [ns "ns-a:53"] in
  let env' := (RequestHandler Exchange NewRR Host config request env0).2 in
  let m := default new_Msg (last (written env')) in
  written env' = written env0 ++ [m]
  ∧ length (Answer m) = 3
  ∧ length (resolved config (Questions request)) = 1
  ∧ length (Answer m)
    = length (resolved config (Questions request))
      + length (concat (answers_of <$> new_exchanges env0 env')).
Proof.
  cbv zeta.
  split; [vm_compute; reflexivity|]. split; [vm_compute; reflexivity|].
  split; [vm_compute; reflexivity|].
  refine (proj1 (proj2 (RequestHandler_answer_count Exchange NewRR Host
            (config [ns "ns-a:53"]) (query ["www.example.com."; "a.example.com."])
            env0 _ _))).
  vm_compute; reflexivity.
Defined.

(** C5 as stated fails: of a query with two questions the failure response
    carries the first only. *)
Lemma RecurseHandler_echoes_first_question_only :
  let request := query ["a.test."; "b.test."] in
  let env' := (RecurseHandler Exchange (config []) request env0).2 in
  ∃ m, written env' = [m]
    ∧ exchanges env' = []
    ∧ Rcode (Hdr m) = RcodeServerFailure
    ∧ Questions m = [q "a.test."]
    ∧ Questions m ≠ Questions request.
Proof.
  cbv zeta. eexists. split; [vm_compute; reflexivity|].
  split; [reflexivity|]. split; [reflexivity|]. split; [reflexivity|]. discriminate.
Qed.

Lemma RecurseHandler_all_failed_witness :
  let request := query ["a.test."] in
  let config := config [ns "down:53"; ns "away:53"] in
  let env' := (RecurseHandler Exchange config request env0).2 in
  length (new_exchanges env0 env') = 2
  ∧ ∃ m, written env' = written env0 ++ [m]
      ∧ Rcode (Hdr m) = RcodeServerFailure
      ∧ Questions m = take 1 (Questions request)
      ∧ (length (Questions request) ≤ 1 → Questions m = Questions request)
      ∧ Compress m = false
      ∧ RecursionAvailable (Hdr m) = true
      ∧ (Nameservers config = [] → exchanges env' = exchanges env0).
Proof.
  cbv zeta. split; [reflexivity|].
  apply (RecurseHandler_all_failed Exchange (config [ns "down:53"; ns "away:53"])
           (query ["a.test."]) env0).
  vm_compute. repeat constructor.
Defined.

Lemma RequestHandler_assembles_witness :
  let request := query ["www.example.com."; "a.example.com."] in
  let config := config [ns "ns-a:53"] in
  let env' := (RequestHandler Exchange NewRR Host config request env0).2 in
  let m := default new_Msg (last (written env')) in
  ∃ local recursed ns,
    RequestHandler_split NewRR config (Questions request) [] [] env0
    = (Returned (local, unresolved config (Questions request)), env0)
    ∧ (unresolved config (Questions request) = [] → recursed = [])
    ∧ (unresolved config (Questions request) ≠ [] →
       (Resolve Exchange config (unresolved config (Questions request)) env0).1
       = Returned recursed)
    ∧ Answer m = local ++ recursed
    ∧ NewRR (NS_template (Config_Name config) Host) = Some ns
    ∧ Ns m = [ns]
    ∧ Authoritative (Hdr m) = true
    ∧ RecursionAvailable (Hdr m) = true
    ∧ Compress m = false.
Proof.
  cbv zeta.
  apply (RequestHandler_assembles Exchange NewRR Host (config [ns "ns-a:53"])
           (query ["www.example.com."; "a.example.com."]) env0).
  vm_compute; reflexivity.
Defined.


Lemma RecurseHandler_first_success_witness :
  let request := query ["b.example.com."] in
  let config := config [ns "down:53"; ns "ns-b:53"; ns "ns-c:53"] in
  let env' := (RecurseHandler Exchange config request env0).2 in
  a_address <$> new_exchanges env0 env' = ["down:53"; "ns-b:53"]
  ∧ a_sent <$> new_exchanges env0 env' = [request; request]
  ∧ written env' = [reply request [A_RR "b.example.com." "192.0.2.3"]].
Proof.
  cbv zeta. split; [reflexivity|]. split; [reflexivity|].
  destruct (RecurseHandler_first_success Exchange
              (config [ns "down:53"; ns "ns-b:53"; ns "ns-c:53"])
              (query ["b.example.com."]) env0) as (_ & _ & _ & Hsuccess).
  destruct (Hsuccess 1 _ (reply (query ["b.example.com."])
                            [A_RR "b.example.com." "192.0.2.3"]) eq_refl eq_refl)
    as (_ & _ & Hw).
  exact (Hw eq_refl).
Defined.

(** C6 as stated fails: for a stored TTL of 2^32 + 7 the record the parser
    hands back, with the question name as owner and the stored address, has
    TTL 7. *)
Lemma RequestHandler_split_wraps_TTL :
  let record := mkRecord "10.0.0.1" 4294967303 in
  let config := mkConfig 53 "example.com." "s3cret"
                  (Some {[ "big" := Some record ]}) [] in
  let question := q "big.example.com." in
  ∃ rr,
    stored config question = Some record
    ∧ RequestHandler_split NewRR_uint32 config [question] [] [] env0
      = (Returned ([rr], []), env0)
    ∧ Name (Header rr) = Q_Name question
    ∧ Rdata rr = Address record
    ∧ Ttl (Header rr) = 7%Z
    ∧ Ttl (Header rr) ≠ TTL record.
Proof.
  cbv zeta. eexists. split; [by vm_compute|].
  split; [vm_compute; reflexivity|].
  split; [reflexivity|]. split; [reflexivity|]. split; [reflexivity|]. discriminate.
Qed.

Lemma RequestHandler_split_lookup_witness :
  let request := query ["www.example.com."; "a.example.com."; "example.com."] in
  let config := config [ns "ns-a:53"] in
  let unknown := [q "a.example.com."; q "example.com."] in
  lookup_key config (q "www.example.com.") = "www"
  ∧ RequestHandler_split NewRR_uint32 config (Questions request) [] [] env0
    = (Returned ([A_record "www.example.com." 300 "10.0.0.1"], unknown), env0)
  ∧ exchanges (RequestHandler Exchange NewRR_uint32 Host config request env0).2
    = exchanges (Resolve Exchange config unknown env0).2
  ∧ length (exchanges (Resolve Exchange config unknown env0).2) = 1.
Proof.
  cbv zeta. split; [reflexivity|].
  assert (reads_back NewRR_uint32 (config [ns "ns-a:53"])
            (Questions (query ["www.example.com."; "a.example.com."; "example.com."])))
    as Hrb.
  { intros question record Hin Hst.
    assert (question = q "www.example.com.") as ->.
    { cbn in Hin. apply elem_of_cons in Hin as [->|Hin]; [done|].
      apply elem_of_cons in Hin as [->|Hin]; [by vm_compute in Hst|].
      apply list_elem_of_singleton in Hin as ->. by vm_compute in Hst. }
    vm_compute in Hst. injection Hst as <-. by vm_compute. }
  destruct (RequestHandler_split_lookup Exchange NewRR_uint32 Host (config [ns "ns-a:53"])
              (query ["www.example.com."; "a.example.com."; "example.com."]) env0 Hrb)
    as (Hsplit & _ & _ & Hrec).
  split; [exact Hsplit|].
  split; [|reflexivity].
  exact (proj1 (Hrec ltac:(discriminate))).
Defined.

Lemma Transport_UnmarshalJSON_spec_witness :
  Transport_UnmarshalJSON json_Unmarshal_string "udp" (quoted EmptyString) = ("tcp", None)
  ∧ Transport_UnmarshalJSON json_Unmarshal_string "tcp" (quoted "udp") = ("udp", None)
  ∧ Transport_UnmarshalJSON json_Unmarshal_string "tcp" (quoted "UDP")
    = ("tcp", Some (IllegalTransport "UDP")).
Proof.
  split; [|split].
  - exact (proj1 (Transport_UnmarshalJSON_spec json_Unmarshal_string "udp"
                    (quoted EmptyString) EmptyString eq_refl) eq_refl).
  - exact (proj1 (proj2 (Transport_UnmarshalJSON_spec json_Unmarshal_string "tcp"
                    (quoted "udp") "udp" eq_refl)) (or_intror eq_refl)).
  - apply (proj2 (proj2 (Transport_UnmarshalJSON_spec json_Unmarshal_string "tcp"
                    (quoted "UDP") "UDP" eq_refl))); discriminate.
Defined.

End Examples.

(** * Further properties of the program *)

(** ** Keys of the record table *)

Lemma String_length_append (s1 s2 : string) :
  String.length (s1 +:+ s2) = String.length s1 + String.length s2.
Proof. induction s1 as [|c s1 IH]; simpl; [done|]. by f_equal. Qed.

Lemma substring_all (s : string) : String.substring 0 (String.length s) s = s.
Proof. induction s as [|c s IH]; simpl; [done|]. by f_equal. Qed.

Lemma substring_append_l (p x : string) :
  String.substring 0 (String.length p) (p +:+ x) = p.
Proof.
  induction p as [|c p IH]; simpl.
  - by destruct x.
  - by f_equal.
Qed.

Lemma substring_append_r (p x : string) :
  String.substring (String.length p) (String.length x) (p +:+ x) = x.
Proof. induction p as [|c p IH]; simpl; [apply substring_all|done]. Qed.

Lemma substring_split (s : string) (n : nat) :
  n ≤ String.length s →
  s = String.substring 0 n s +:+ String.substring n (String.length s - n) s.
Proof.
  revert n. induction s as [|c s IH]; intros n Hn.
  - destruct n; cbn in *; [done|lia].
  - destruct n as [|n]; simpl.
    + by rewrite substring_all.
    + change (String c s
              = String c (String.substring 0 n s
                          +:+ String.substring n (String.length s - n) s)).
      f_equal. apply IH. simpl in Hn. lia.
Qed.

Lemma HasSuffix_append (p suffix : string) : HasSuffix (p +:+ suffix) suffix = true.
Proof.
  unfold HasSuffix. rewrite String_length_append.
  rewrite bool_decide_eq_true_2 by lia.
  replace (String.length p + String.length suffix - String.length suffix)
    with (String.length p) by lia.
  rewrite substring_append_r. by rewrite bool_decide_eq_true_2.
Qed.

Lemma HasSuffix_true (s suffix : string) :
  HasSuffix s suffix = true ↔ ∃ p, s = p +:+ suffix.
Proof.
  split.
  - unfold HasSuffix. intros H. apply andb_true_iff in H as [Hlen Hsub].
    apply bool_decide_eq_true in Hlen. apply bool_decide_eq_true in Hsub.
    exists (String.substring 0 (String.length s - String.length suffix) s).
    etrans; [apply (substring_split s (String.length s - String.length suffix)); lia|].
    replace (String.length s - (String.length s - String.length suffix))
      with (String.length suffix) by lia.
    by rewrite Hsub.
  - intros [p ->]. apply HasSuffix_append.
Qed.

Lemma TrimSuffix_append (p suffix : string) : TrimSuffix (p +:+ suffix) suffix = p.
Proof.
  unfold TrimSuffix. rewrite HasSuffix_append, String_length_append.
  replace (String.length p + String.length suffix - String.length suffix)
    with (String.length p) by lia.
  apply substring_append_l.
Qed.

Lemma lookup_key_append (config : Config) (key : string) (qtype qclass : Z) :
  lookup_key config (mkQuestion (key +:+ "." +:+ Config_Name config) qtype qclass)
  = key.
Proof. unfold lookup_key. cbn [Q_Name]. apply TrimSuffix_append. Qed.

(** X1.  A question named [<key>.<zone>] is looked up in the record table
    under [<key>]: the handler trims the dot and the zone name, whatever the
    key and the zone are. *)
Theorem lookup_key_in_zone (config : Config) (key : string) (qtype qclass : Z) :
  lookup_key config (mkQuestion (key +:+ "." +:+ Config_Name config) qtype qclass)
  = key.
Proof.
  unfold lookup_key. cbn [Q_Name].
  apply TrimSuffix_append.
Qed.

(** X2.  The key of a question is its whole name exactly when the name does
    not end with the dot and the zone name; the name of the zone itself is
    such a name.  Otherwise the name is the key followed by the dot and the
    zone name. *)
Theorem lookup_key_cases (config : Config) (question : Question) :
  (Q_Name question
   = lookup_key config question +:+ "." +:+ Config_Name config)
  ∨ (lookup_key config question = Q_Name question
     ∧ ∀ p, Q_Name question ≠ p +:+ "." +:+ Config_Name config).
Proof.
  unfold lookup_key, TrimSuffix.
  destruct (HasSuffix (Q_Name question) ("." +:+ Config_Name config)) eqn:Hs.
  - left. apply HasSuffix_true in Hs as [p Hp]. rewrite Hp.
    rewrite String_length_append.
    replace (String.length p + String.length ("." +:+ Config_Name config)
             - String.length ("." +:+ Config_Name config))
      with (String.length p) by lia.
    by rewrite substring_append_l.
  - right. split; [done|]. intros p Hp.
    assert (HasSuffix (Q_Name question) ("." +:+ Config_Name config) = true) as Ht.
    { apply HasSuffix_true. by exists p. }
    by rewrite Ht in Hs.
Qed.

(** ** The record table under the administrative interface *)

Lemma api_assign (config : Config) (header : list string)
    (name : string) (record : Record_) (r : Route)
    (m : gmap string (option Record_)) :
  Join header EmptyString = Secret config →
  Records config = Some m →
  r = CREATE (Some (mkNamedRecord record name)) ∨ r = UPDATE name (Some record) →
  api config (mkAdminRequest header r)
  = (mkConfig (Port config) (Config_Name config) (Secret config)
       (Some (<[name := Some record]> m)) (Nameservers config),
     mkHTTPResponse 200 NoBody).
Proof.
  intros Hsecret Hm Hr. unfold api. cbn [Header_Secret route].
  rewrite decide_True by done.
  assert (api_route config r = Records_assign config name record) as ->.
  { by destruct Hr as [-> | ->]. }
  unfold Records_assign. by rewrite Hm.
Qed.

Lemma api_DESTROY (config : Config) (header : list string) (name : string) :
  Join header EmptyString = Secret config →
  api config (mkAdminRequest header (DESTROY name))
  = (Records_delete config name, mkHTTPResponse 200 NoBody).
Proof.
  intros Hsecret. unfold api. cbn [Header_Secret route].
  by rewrite decide_True.
Qed.

Lemma Records_delete_index (config : Config) (name key : string) :
  Records_index (Records (Records_delete config name)) key
  = if decide (key = name) then None else Records_index (Records config) key.
Proof.
  cbn. destruct (Records config) as [m|]; cbn.
  - case_decide as Hk.
    + subst key. by rewrite lookup_delete_eq.
    + by rewrite lookup_delete_ne.
  - by case_decide.
Qed.

(** X3.  Creating, or updating, a record through the interface on a table
    that is not nil answers 200, and afterwards indexing the table gives the
    new Record at that name and what it gave before at every other name. *)
Theorem api_assign_lookup (config : Config) (header : list string)
    (name : string) (record : Record_) (r : Route)
    (m : gmap string (option Record_)) :
  Join header EmptyString = Secret config →
  Records config = Some m →
  r = CREATE (Some (mkNamedRecord record name)) ∨ r = UPDATE name (Some record) →
  status (api config (mkAdminRequest header r)).2 = 200%Z
  ∧ ∀ key,
      Records_index (Records (api config (mkAdminRequest header r)).1) key
      = if decide (key = name) then Some record
        else Records_index (Records config) key.
Proof.
  intros Hsecret Hm Hr. rewrite (api_assign config header name record r m) by done.
  cbn. split; [done|].
  intros key. case_decide as Hk.
  - subst key. by rewrite lookup_insert_eq.
  - rewrite lookup_insert_ne by done. by rewrite Hm.
Qed.

(** X4.  Deleting a record through the interface answers 200 whether or not
    the name was there; afterwards indexing the table gives nothing at that
    name and what it gave before at every other name. *)
Theorem api_DESTROY_lookup (config : Config) (header : list string) (name : string) :
  Join header EmptyString = Secret config →
  status (api config (mkAdminRequest header (DESTROY name))).2 = 200%Z
  ∧ ∀ key,
      Records_index (Records (api config (mkAdminRequest header (DESTROY name))).1) key
      = if decide (key = name) then None
        else Records_index (Records config) key.
Proof.
  intros Hsecret. rewrite api_DESTROY by done. cbn [fst snd status].
  split; [done|]. intros key. apply Records_delete_index.
Qed.



(** X6.  Requests that do not carry the secret (the values of their Secret
    header, joined, differ from it) are all answered 403 and leave the whole
    configuration as it is: this holds for every route, the two reading ones
    included. *)
Theorem api_run_unauthorized (config : Config) (requests : list AdminRequest) :
  Forall (λ request, Join (Header_Secret request) EmptyString ≠ Secret config)
         requests →
  api_run config requests
  = (config, (λ _, mkHTTPResponse 403 (Text "Incorrect shared secret")) <$> requests).
Proof.
  induction 1 as [|request rest Hbad _ IH]; [done|].
  cbn [api_run]. unfold api at 1. rewrite decide_False by done.
  by rewrite IH.
Qed.

Section Table_and_queries.

Context {World : Type}.
Variable NewRR : string → option RR.

(** X7.  A record created through the interface is served to the queries that
    follow: after the creation of [name] a question for [<name>.<zone>] is
    answered by the split loop with the one record its stored TTL and
    address give, and is not passed to recursion. *)
Theorem created_record_is_served (config : Config) (header : list string)
    (json : NamedRecord) (m : gmap string (option Record_))
    (qtype qclass : Z) (rr : RR) (env : @Env World) :
  Join header EmptyString = Secret config →
  Records config = Some m →
  let question := mkQuestion (NamedRecord_Name json +:+ "." +:+ Config_Name config)
                             qtype qclass in
  NewRR (A_template (Q_Name question) (TTL (NamedRecord_Record json))
           (Address (NamedRecord_Record json))) = Some rr →
  RequestHandler_split NewRR
    (api config (mkAdminRequest header (CREATE (Some json)))).1 [question] [] [] env
  = (Returned ([rr], []), env).
Proof.
  intros Hsecret Hm question Hrr.
  destruct json as [record name].
  rewrite (api_assign config header name record _ m) by (done || by left).
  cbn [fst RequestHandler_split]. cbv zeta.
  assert (lookup_key (mkConfig (Port config) (Config_Name config) (Secret config)
                        (Some (<[name := Some record]> m)) (Nameservers config))
                     question = name) as ->.
  { apply (lookup_key_append (mkConfig _ _ _ _ _)). }
  cbn [Records Records_index]. rewrite lookup_insert_eq.
  unfold mbind, M_bind, MustRR. cbn [NamedRecord_Record NamedRecord_Name] in Hrr.
  cbn [default from_option id]. by rewrite Hrr.
Qed.

(** X8.  A record deleted through the interface is no longer served: after
    the deletion of [name] the split loop passes a question for
    [<name>.<zone>] to recursion and synthesizes nothing for it. *)
Theorem destroyed_record_is_unresolved (config : Config) (header : list string)
    (name : string) (qtype qclass : Z) (env : @Env World) :
  Join header EmptyString = Secret config →
  let question := mkQuestion (name +:+ "." +:+ Config_Name config) qtype qclass in
  RequestHandler_split NewRR
    (api config (mkAdminRequest header (DESTROY name))).1 [question] [] [] env
  = (Returned ([], [question]), env).
Proof.
  intros Hsecret question. rewrite api_DESTROY by done.
  cbn [fst RequestHandler_split]. cbv zeta.
  assert (lookup_key (Records_delete config name) question = name) as ->.
  { apply (lookup_key_append (Records_delete config name)). }
  by rewrite Records_delete_index, decide_True.
Qed.

End Table_and_queries.

(** ** The handlers and the resolver as a whole *)

Section Handlers.

Context {World : Type}.
Variable Exchange : Client → Msg → string → World → ExchangeResult * World.
Variable NewRR : string → option RR.
Variable Host : string.

Implicit Types (env : @Env World) (request : Msg) (config : Config).

(** What [Resolve] sends to a nameserver. *)
Definition batched (questions : list Question) (nameserver : Nameserver)
    : Client * string * Msg :=
  (Nameserver_Client nameserver, Nameserver_Address nameserver,
   batch_query questions).

(** A question whose stored Record gives a line the parser refuses. *)
Definition unparsable config (q : Question) : Prop :=
  ∃ record, stored config q = Some record
    ∧ NewRR (A_template (Q_Name q) (TTL record) (Address record)) = None.

Lemma RecurseHandler_returns config request env :
  (RecurseHandler Exchange config request env).1 = Returned ().
Proof.
  destruct (RecurseHandler_loop_spec Exchange request (Nameservers config) env)
    as (tried & _ & _ & Hout).
  unfold RecurseHandler, mbind, M_bind. cbv zeta in Hout.
  destruct (RecurseHandler_loop Exchange request (Nameservers config) env)
    as [[[|]|] env1]; cbn in Hout; [done|done|done].
Qed.

(** X9.  The pass-through handler never panics and always writes exactly one
    message to the client, after at most one exchange per configured
    nameserver. *)
Theorem RecurseHandler_always_replies config request env :
  let run := RecurseHandler Exchange config request env in
  run.1 = Returned ()
  ∧ (∃ m, written run.2 = written env ++ [m])
  ∧ length (new_exchanges env run.2) ≤ length (Nameservers config).
Proof.
  cbv zeta. split; [apply RecurseHandler_returns|].
  destruct (RecurseHandler_spec Exchange config request env)
    as (tried & Hex & Hsent & Hout).
  cbv zeta in Hex, Hsent, Hout. rewrite (new_exchanges_app _ _ _ Hex).
  split.
  - destruct Hout as [(before & a & r & _ & _ & _ & Hw)|(_ & _ & Hw)]; eauto.
  - apply (f_equal length) in Hsent. rewrite !length_fmap, length_take in Hsent. lia.
Qed.

(** X10.  When every exchange of the pass-through handler failed, each
    configured nameserver was tried exactly once, in the configured order,
    with the query itself. *)
Theorem RecurseHandler_exhausts config request env :
  let env' := (RecurseHandler Exchange config request env).2 in
  Forall failed (new_exchanges env env') →
  sent <$> new_exchanges env env' = forwarded request <$> Nameservers config.
Proof.
  cbv zeta.
  destruct (RecurseHandler_spec Exchange config request env)
    as (tried & Hex & Hsent & Hout).
  cbv zeta in Hex, Hsent, Hout. rewrite (new_exchanges_app _ _ _ Hex).
  intros Hall.
  destruct Hout as [(before & a & r & -> & _ & Ha & _)|(Hlen & _ & _)].
  - apply Forall_app in Hall as [_ Hall]. rewrite Forall_singleton in Hall.
    unfold failed in Hall. by rewrite Hall in Ha.
  - rewrite Hsent, Hlen. by rewrite firstn_all.
Qed.

(** *** Batch resolution *)

Lemma delete_answered_app (l1 l2 : list RR) (targets : gmap string Question) :
  delete_answered (l1 ++ l2) targets = delete_answered l2 (delete_answered l1 targets).
Proof. unfold delete_answered. apply foldl_app. Qed.

(** The pending names: the last question of each name. *)
Lemma Resolve_targets_last (questions : list Question) (name : string) :
  Resolve_targets questions !! name
  = last (filter (λ q, Q_Name q = name) questions).
Proof.
  unfold Resolve_targets.
  induction questions as [|q rest IH] using rev_ind; [done|].
  rewrite foldl_app, filter_app. cbn [foldl]. rewrite filter_cons, filter_nil.
  case_decide as Hq.
  - subst name. rewrite lookup_insert_eq. by rewrite last_snoc.
  - rewrite lookup_insert_ne by done. by rewrite app_nil_r.
Qed.

Lemma Resolve_targets_elem (questions : list Question) (q : Question) :
  q ∈ questions → is_Some (Resolve_targets questions !! Q_Name q).
Proof.
  intros Hin. rewrite Resolve_targets_last.
  assert (q ∈ filter (λ q', Q_Name q' = Q_Name q) questions) as Hf.
  { apply list_elem_of_filter. done. }
  destruct (filter _ questions) as [|x l] using rev_ind.
  - by apply elem_of_nil in Hf.
  - rewrite last_snoc. eauto.
Qed.

Lemma Resolve_targets_Some (questions : list Question) (name : string) (q : Question) :
  Resolve_targets questions !! name = Some q → q ∈ questions ∧ Q_Name q = name.
Proof.
  rewrite Resolve_targets_last. intros Hlast.
  apply last_Some in Hlast as [l Hl].
  assert (q ∈ filter (λ q', Q_Name q' = name) questions) as Hf.
  { rewrite Hl. apply elem_of_app. right. apply list_elem_of_here. }
  by apply list_elem_of_filter in Hf as [? ?].
Qed.

(** The loop of [Resolve]: its trace follows the nameservers, it stops early
    only on an empty pending set, and it exchanges only on a non-empty one. *)
Lemma Resolve_loop_trace questions nameservers targets answers env :
  ∃ tried,
    Resolve_loop Exchange questions nameservers targets answers env
    = (Returned (answers ++ concat (answers_of <$> tried)),
       mkEnv (world (Resolve_loop Exchange questions nameservers targets answers env).2)
             (exchanges env ++ tried) (written env))
    ∧ sent <$> tried = batched questions <$> take (length tried) nameservers
    ∧ (length tried < length nameservers →
       delete_answered (concat (answers_of <$> tried)) targets = ∅)
    ∧ (∀ i, i < length tried →
       delete_answered (concat (answers_of <$> take i tried)) targets ≠ ∅).
Proof.
  revert targets answers env.
  induction nameservers as [|nameserver rest IH]; intros targets answers env.
  - exists []. cbn. rewrite !app_nil_r. split; [by destruct env|].
    split; [done|]. split; [lia|]. intros i Hi. lia.
  - cbn [Resolve_loop]. case_decide as Hsz.
    + exists []. cbn. rewrite !app_nil_r. split; [by destruct env|].
      split; [done|]. split; [|intros i Hi; lia].
      intros _. by apply map_size_empty_iff.
    + unfold mbind, M_bind. rewrite Resolve_attempt_spec. cbv beta iota zeta.
      set (a := batch_attempt Exchange questions nameserver env).
      assert (match usable (a_result a) with
              | Some r => (delete_answered (Answer r) targets, answers ++ Answer r)
              | None => (targets, answers)
              end
              = (delete_answered (answers_of a) targets, answers ++ answers_of a))
        as ->.
      { unfold answers_of. destruct (usable (a_result a)); [done|].
        by rewrite app_nil_r. }
      cbn [fst snd].
      match goal with |- context [Resolve_loop _ _ _ ?t ?an ?e] =>
        destruct (IH t an e) as (tried & Hrun & Hsent & Hstop & Hgo) end.
      cbn [exchanges written] in Hrun.
      exists (a :: tried). rewrite Hrun at 1. cbn [snd world].
      split.
      { f_equal.
        - f_equal. cbn [fmap list_fmap concat]. by rewrite <- app_assoc.
        - f_equal. by rewrite <- app_assoc. }
      split. { cbn. by rewrite Hsent. }
      split.
      { intros Hlen. cbn [fmap list_fmap concat]. rewrite delete_answered_app.
        apply Hstop. cbn in Hlen. lia. }
      intros [|i] Hi.
      * cbn. intros He. apply Hsz. rewrite He. apply map_size_empty.
      * cbn [take fmap list_fmap concat]. rewrite delete_answered_app.
        apply Hgo. cbn in Hi. lia.
Qed.

(** X11.  Batch resolution makes its exchanges with the configured
    nameservers in their order, each with the nameserver's client and address
    and with the whole list of questions it was given; it returns the answer
    sections of the usable replies, concatenated in the order of the
    exchanges; it never panics and writes nothing to the client. *)
Theorem Resolve_in_order config questions env :
  let run := Resolve Exchange config questions env in
  let tried := new_exchanges env run.2 in
  run.1 = Returned (concat (answers_of <$> tried))
  ∧ exchanges run.2 = exchanges env ++ tried
  ∧ written run.2 = written env
  ∧ sent <$> tried = batched questions <$> take (length tried) (Nameservers config).
Proof.
  cbv zeta. unfold Resolve.
  destruct (Resolve_loop_trace questions (Nameservers config)
              (Resolve_targets questions) [] env) as (tried & Hrun & Hsent & _).
  rewrite Hrun. cbn [fst snd exchanges written].
  unfold new_exchanges. cbn [exchanges]. rewrite drop_app_length. done.
Qed.

(** X12.  When batch resolution stops before the last configured nameserver,
    every question it was given has its name among the owner names of the
    records it returns. *)
Theorem Resolve_stops_when_answered config questions env :
  let run := Resolve Exchange config questions env in
  length (new_exchanges env run.2) < length (Nameservers config) →
  ∃ answers, run.1 = Returned answers
    ∧ ∀ q, q ∈ questions → Q_Name q ∈ owners answers.
Proof.
  cbv zeta. unfold Resolve.
  destruct (Resolve_loop_trace questions (Nameservers config)
              (Resolve_targets questions) [] env) as (tried & Hrun & _ & Hstop & _).
  rewrite Hrun. cbn [fst snd]. unfold new_exchanges. cbn [exchanges].
  rewrite drop_app_length. intros Hlen. eexists. split; [done|].
  intros q Hq. specialize (Hstop Hlen).
  pose proof (delete_answered_lookup (concat (answers_of <$> tried))
                (Resolve_targets questions) (Q_Name q)) as Hl.
  rewrite Hstop, lookup_empty in Hl. case_decide as Hin; [done|].
  destruct (Resolve_targets_elem questions q Hq) as [x Hx]. by rewrite Hx in Hl.
Qed.

(** X13.  Batch resolution contacts a nameserver only while something is
    pending: before each of its exchanges, some question it was given has a
    name that no record returned so far has as owner name. *)
Theorem Resolve_exchanges_while_pending config questions env (i : nat) :
  let tried := new_exchanges env (Resolve Exchange config questions env).2 in
  i < length tried →
  ∃ q, q ∈ questions
    ∧ Q_Name q ∉ owners (concat (answers_of <$> take i tried)).
Proof.
  cbv zeta. unfold Resolve.
  destruct (Resolve_loop_trace questions (Nameservers config)
              (Resolve_targets questions) [] env) as (tried & Hrun & _ & _ & Hgo).
  rewrite Hrun. cbn [snd]. unfold new_exchanges. cbn [exchanges].
  rewrite drop_app_length. intros Hi.
  destruct (map_choose _ (Hgo i Hi)) as (name & q & Hq).
  rewrite delete_answered_lookup in Hq. case_decide as Hin; [done|].
  apply Resolve_targets_Some in Hq as [Hq <-]. by exists q.
Qed.

(** X14.  With no question or with no nameserver batch resolution does
    nothing: no exchange, no answer. *)
Theorem Resolve_nothing_to_do config questions env :
  questions = [] ∨ Nameservers config = [] →
  Resolve Exchange config questions env = (Returned [], env).
Proof.
  unfold Resolve. intros [-> | ->]; [|done].
  destruct (Nameservers config) as [|nameserver rest]; [done|].
  cbn [Resolve_loop]. by rewrite decide_True.
Qed.

(** X15.  Pending questions are kept by name: of the questions given to batch
    resolution that share a name, the last one is the pending entry of that
    name, and a name no question has is not pending. *)
Theorem Resolve_targets_lookup (questions : list Question) (name : string) :
  Resolve_targets questions !! name
  = last (filter (λ q, Q_Name q = name) questions).
Proof.
  unfold Resolve_targets.
  induction questions as [|q rest IH] using rev_ind; [done|].
  rewrite foldl_app, filter_app. cbn [foldl]. rewrite filter_cons, filter_nil.
  case_decide as Hq.
  - subst name. rewrite lookup_insert_eq. by rewrite last_snoc.
  - rewrite lookup_insert_ne by done. by rewrite app_nil_r.
Qed.

(** *** The handler of the owned zone *)

Lemma RequestHandler_split_panics config questions answers unknown env :
  (RequestHandler_split NewRR config questions answers unknown env).1 = Panicked
  ↔ Exists (unparsable config) questions.
Proof.
  revert answers unknown.
  induction questions as [|q rest IH]; intros answers unknown.
  - cbn. split; [done|]. intros H. by apply Exists_nil in H.
  - cbn [RequestHandler_split]. cbv zeta. rewrite Exists_cons.
    change (Records_index (Records config) (lookup_key config q))
      with (stored config q).
    destruct (stored config q) as [record|] eqn:Hst.
    + unfold mbind, M_bind.
      destruct (NewRR (A_template (Q_Name q) (TTL record) (Address record)))
        as [rr|] eqn:Hrr.
      * rewrite (MustRR_Some NewRR _ rr) by done. rewrite IH.
        split; [by right|]. intros [(record' & Hst' & Hnone)|H]; [|done].
        rewrite Hst in Hst'. injection Hst' as <-. by rewrite Hrr in Hnone.
      * rewrite (MustRR_None NewRR) by done. cbn. split; [|done].
        intros _. left. by exists record.
    + rewrite IH. split; [by right|].
      intros [(record' & Hst' & _)|H]; [|done]. by rewrite Hst in Hst'.
Qed.

(** X16.  The owned-zone handler panics exactly when the parser refuses a
    line it builds: the A line of some question with a stored Record, or the
    NS line of the zone.  When it panics it has written nothing to the
    client; otherwise it has written exactly one message. *)
Theorem RequestHandler_panics_iff config request env :
  let run := RequestHandler Exchange NewRR Host config request env in
  (run.1 = Panicked
   ↔ Exists (unparsable config) (Questions request)
     ∨ NewRR (NS_template (Config_Name config) Host) = None)
  ∧ (run.1 = Panicked → written run.2 = written env)
  ∧ (run.1 ≠ Panicked → ∃ m, written run.2 = written env ++ [m]).
Proof.
  cbv zeta.
  assert (∀ out env', RequestHandler Exchange NewRR Host config request env = (out, env') →
          match out with
          | Returned _ => ∃ m, written env' = written env ++ [m]
          | Panicked => written env' = written env
          end) as Hw.
  { intros out env' Hrun.
    destruct (RequestHandler_spec Exchange NewRR Host _ _ _ _ _ Hrun)
      as (tried & _ & _ & Hout).
    destruct out; [|done]. destruct Hout as (local & ns & _ & _ & _ & _ & _ & Hm).
    eauto. }
  split; [|split].
  - rewrite RequestHandler_cases.
    pose proof (RequestHandler_split_panics config (Questions request) [] [] env) as Hsp.
    destruct (RequestHandler_split NewRR config (Questions request) [] [] env)
      as [[[local unknown]|] env1]; cbn [fst] in Hsp.
    2:{ split; [|done]. intros _. left. by apply Hsp. }
    cbv zeta.
    assert (∃ recursed,
      (if decide (0 < length unknown) then Resolve Exchange config unknown env1
       else (Returned [], env1)).1 = Returned recursed) as [recursed Hrec].
    { case_decide; [|by eexists].
      destruct (Resolve_spec Exchange config unknown env1) as (tried & Hout & _).
      eauto. }
    rewrite Hrec.
    destruct (NewRR (NS_template (Config_Name config) Host)) as [ns|]; cbn [fst].
    + split; [done|]. intros [H|H]; [|done]. apply Hsp in H. done.
    + split; [by right|done].
  - intros Hp.
    destruct (RequestHandler Exchange NewRR Host config request env) as [out env'] eqn:Hrun.
    cbn [fst snd] in Hp |- *. subst out. exact (Hw _ _ eq_refl).
  - intros Hp.
    destruct (RequestHandler Exchange NewRR Host config request env) as [out env'] eqn:Hrun.
    cbn [fst snd] in Hp |- *. specialize (Hw _ _ eq_refl). by destruct out.
Qed.

(** X17.  A query whose questions the record table all resolves is answered
    without any exchange with a nameserver: the handler leaves the network
    alone. *)
Theorem RequestHandler_local_only config request env :
  let env' := (RequestHandler Exchange NewRR Host config request env).2 in
  unresolved config (Questions request) = [] →
  exchanges env' = exchanges env ∧ world env' = world env.
Proof.
  cbv zeta. intros Hun. rewrite RequestHandler_cases.
  pose proof (RequestHandler_split_spec NewRR config (Questions request) [] [] env) as Hsp.
  destruct (RequestHandler_split NewRR config (Questions request) [] [] env)
    as [[[local unknown]|] env1]; [|by subst].
  destruct Hsp as (-> & -> & _). rewrite Hun. cbn.
  destruct (NewRR (NS_template (Config_Name config) Host)); done.
Qed.

Lemma assembled_header request answers ns :
  Rcode (Hdr (assembled request answers ns)) = RcodeSuccess
  ∧ Response (Hdr (assembled request answers ns)) = true
  ∧ Id (Hdr (assembled request answers ns)) = Id (Hdr request)
  ∧ Questions (assembled request answers ns) = take 1 (Questions request).
Proof.
  unfold assembled, SetReply. destruct (Questions request); cbn; done.
Qed.

(** X18.  Every message the owned-zone handler writes is a response with the
    id of the query and rcode success, whatever was or was not answered (an
    empty answer section is not reported as a failure); its question section
    is the first question of the query. *)
Theorem RequestHandler_reply_header config request env m :
  let env' := (RequestHandler Exchange NewRR Host config request env).2 in
  written env' = written env ++ [m] →
  Rcode (Hdr m) = RcodeSuccess
  ∧ Response (Hdr m) = true
  ∧ Id (Hdr m) = Id (Hdr request)
  ∧ Questions m = take 1 (Questions request).
Proof.
  cbv zeta.
  destruct (RequestHandler Exchange NewRR Host config request env) as [out env'] eqn:Hrun.
  cbn [snd]. intros Hm.
  destruct (RequestHandler_spec Exchange NewRR Host _ _ _ _ _ Hrun)
    as (tried & _ & _ & Hout).
  destruct out as [u|].
  2:{ rewrite Hout in Hm. apply (f_equal length) in Hm.
      rewrite length_app in Hm. cbn in Hm. lia. }
  destruct Hout as (local & ns & _ & _ & _ & _ & _ & Hw).
  rewrite Hw in Hm. apply app_inv_head in Hm. injection Hm as <-.
  apply assembled_header.
Qed.

End Handlers.

(** ** The address of the server *)

Lemma To4_length (ip p : IP) : To4 ip = Some p → length p = 4.
Proof.
  unfold To4. case_decide as H4; [by intros [= <-]|].
  destruct (bool_decide (length ip = 16)) eqn:H16; [|done].
  apply bool_decide_eq_true in H16. cbn [andb].
  destruct (_ && _ && _); [|done].
  intros [= <-]. rewrite length_drop. lia.
Qed.

Section Interfaces_properties.

Context {Interface : Type}.
Variable InterfaceByName : string → option Interface.
Variable Addrs : Interface → option (list Addr).

Lemma MustGetAddress_loop_Some (addrs : list Addr) (ip : IP) :
  MustGetAddress_loop addrs = Some ip
  ↔ ∃ before addr after,
      addrs = before ++ addr :: after
      ∧ Addr_IP addr = ip
      ∧ is_Some (To4 ip)
      ∧ Forall (λ b, To4 (Addr_IP b) = None) before.
Proof.
  induction addrs as [|addr rest IH]; cbn [MustGetAddress_loop]; cbv zeta.
  - split; [done|]. intros (before & a & after & H & _). by destruct before.
  - destruct (To4 (Addr_IP addr)) as [p|] eqn:H4.
    + split.
      * intros [= <-]. exists [], addr, rest. rewrite H4. eauto.
      * intros ([|b before] & a & after & Heq & Hip & Hsome & Hnone);
          simplify_eq/=; [done|].
        apply Forall_cons in Hnone as [Hb _]. by rewrite H4 in Hb.
    + rewrite IH. split.
      * intros (before & a & after & -> & Hip & Hsome & Hnone).
        exists (addr :: before), a, after. split; [done|]. split; [done|].
        split; [done|]. by constructor.
      * intros ([|b before] & a & after & Heq & Hip & Hsome & Hnone);
          simplify_eq/=.
        -- rewrite H4 in Hsome. by destruct Hsome.
        -- apply Forall_cons in Hnone as [_ Hnone].
           exists before, a, after. done.
Qed.

Lemma MustGetAddress_Returned (interfaceName : string) (ip : IP) :
  MustGetAddress InterfaceByName Addrs interfaceName = Returned ip
  ↔ ∃ iface before addr after,
      InterfaceByName "en0" = Some iface
      ∧ Addrs iface = Some (before ++ addr :: after)
      ∧ Addr_IP addr = ip
      ∧ is_Some (To4 ip)
      ∧ Forall (λ b, To4 (Addr_IP b) = None) before.
Proof.
  unfold MustGetAddress. split.
  - destruct (InterfaceByName "en0") as [iface|] eqn:Hif; [|done].
    destruct (Addrs iface) as [addrs|] eqn:Had; [|done].
    destruct (MustGetAddress_loop addrs) as [ip'|] eqn:Hloop; [|done].
    intros [= <-]. apply MustGetAddress_loop_Some in Hloop
      as (before & addr & after & -> & H). exists iface, before, addr, after. done.
  - intros (iface & before & addr & after & -> & -> & H).
    assert (MustGetAddress_loop (before ++ addr :: after) = Some ip) as ->; [|done].
    apply MustGetAddress_loop_Some. exists before, addr, after. done.
Qed.

(** X19.  [MustGetAddress] returns an address exactly when interface [en0]
    exists, its addresses can be listed, and one of them has an IPv4 form;
    the address returned is then the first such one, in the order listed.
    The name passed to it plays no part. *)
Theorem MustGetAddress_first_IPv4 (interfaceName : string) (ip : IP) :
  MustGetAddress InterfaceByName Addrs interfaceName = Returned ip
  ↔ ∃ iface before addr after,
      InterfaceByName "en0" = Some iface
      ∧ Addrs iface = Some (before ++ addr :: after)
      ∧ Addr_IP addr = ip
      ∧ is_Some (To4 ip)
      ∧ Forall (λ b, To4 (Addr_IP b) = None) before.
Proof.
  unfold MustGetAddress. split.
  - destruct (InterfaceByName "en0") as [iface|] eqn:Hif; [|done].
    destruct (Addrs iface) as [addrs|] eqn:Had; [|done].
    destruct (MustGetAddress_loop addrs) as [ip'|] eqn:Hloop; [|done].
    intros [= <-]. apply MustGetAddress_loop_Some in Hloop
      as (before & addr & after & -> & H). exists iface, before, addr, after. done.
  - intros (iface & before & addr & after & -> & -> & H).
    assert (MustGetAddress_loop (before ++ addr :: after) = Some ip) as ->; [|done].
    apply MustGetAddress_loop_Some. exists before, addr, after. done.
Qed.

(** X20.  Whenever [MustGetAddress] returns, [Host] is the dotted decimal
    text of four bytes, the IPv4 form of the address returned: the call of
    [To4] in its initializer never meets an address without one. *)
Theorem Host_is_dotted_quad (ip : IP) :
  MustGetAddress InterfaceByName Addrs "en0" = Returned ip →
  ∃ a b c d,
    To4 ip = Some [a; b; c; d]
    ∧ Host_value InterfaceByName Addrs
      = Returned (pretty (Byte.to_N a) +:+ "." +:+ pretty (Byte.to_N b) +:+ "."
                  +:+ pretty (Byte.to_N c) +:+ "." +:+ pretty (Byte.to_N d)).
Proof.
  intros Hrun. unfold Host_value. rewrite Hrun.
  apply MustGetAddress_Returned in Hrun
    as (iface & before & addr & after & _ & _ & _ & [p Hp] & _).
  pose proof (To4_length ip p Hp) as Hlen. rewrite Hp.
  destruct p as [|a [|b [|c [|d [|e p]]]]]; try done.
  by exists a, b, c, d.
Qed.

End Interfaces_properties.

(** ** Transports *)

(** X21.  Whatever the JSON decoder does, a Transport that was parsed without
    an error is ["tcp"] or ["udp"]; with an error it keeps the value it had,
    and an error of the decoder is the error returned. *)
Theorem Transport_UnmarshalJSON_valid (json_Unmarshal_string : string → error + string)
    (e : Transport) (b : string) :
  let result := Transport_UnmarshalJSON json_Unmarshal_string e b in
  (result.2 = None → result.1 = "tcp" ∨ result.1 = "udp")
  ∧ (result.2 ≠ None → result.1 = e)
  ∧ (∀ err, json_Unmarshal_string b = inl err → result = (e, Some err)).
Proof.
  cbv zeta. unfold Transport_UnmarshalJSON.
  destruct (json_Unmarshal_string b) as [err|s].
  - split; [done|]. split; [done|]. by intros ? [= ->].
  - case_decide as H0; [split; [by left|split; done]|].
    case_decide as H1; cbn.
    + split; [done|]. split; done.
    + split; [done|]. split; done.
Qed.

(** ** The further properties at concrete inputs *)

Module More_examples.
Import Example.

Lemma api_assign_lookup_witness :
  let request := mkAdminRequest ["s3cret"]
                   (UPDATE "mail" (Some (mkRecord "10.0.0.2" 60))) in
  Records_index (Records (api (config []) request).1) "mail"
  = Some (mkRecord "10.0.0.2" 60)
  ∧ Records_index (Records (api (config []) request).1) "www"
    = Some (mkRecord "10.0.0.1" 300).
Proof.
  cbv zeta.
  pose proof (api_assign_lookup (config []) ["s3cret"] "mail" (mkRecord "10.0.0.2" 60)
                (UPDATE "mail" (Some (mkRecord "10.0.0.2" 60))) records
                eq_refl eq_refl (or_intror eq_refl)) as [_ Hlookup].
  split.
  - exact (Hlookup "mail").
  - exact (Hlookup "www").
Defined.

Lemma api_DESTROY_lookup_witness :
  let request := mkAdminRequest ["s3cret"] (DESTROY "www") in
  status (api (config []) request).2 = 200%Z
  ∧ Records_index (Records (api (config []) request).1) "www" = None.
Proof.
  cbv zeta.
  pose proof (api_DESTROY_lookup (config []) ["s3cret"] "www" eq_refl)
    as [Hstatus Hlookup].
  split; [exact Hstatus|exact (Hlookup "www")].
Defined.

Lemma api_run_unauthorized_witness :
  api_run (config [])
    [mkAdminRequest [] LIST; mkAdminRequest ["guess"] (DESTROY "www")]
  = (config [],
     [mkHTTPResponse 403 (Text "Incorrect shared secret");
      mkHTTPResponse 403 (Text "Incorrect shared secret")]).
Proof.
  apply (api_run_unauthorized (config [])
           [mkAdminRequest [] LIST; mkAdminRequest ["guess"] (DESTROY "www")]).
  repeat constructor; discriminate.
Defined.

Lemma created_record_is_served_witness :
  let json := mkNamedRecord (mkRecord "10.0.0.2" 60) "mail" in
  RequestHandler_split NewRR
    (api (config []) (mkAdminRequest ["s3cret"] (CREATE (Some json)))).1
    [q "mail.example.com."] [] [] env0
  = (Returned ([mkRR (mkRR_Header "mail.example.com." TypeA ClassINET 60) "10.0.0.2"],
               []), env0).
Proof.
  cbv zeta.
  exact (created_record_is_served NewRR (config []) ["s3cret"]
           (mkNamedRecord (mkRecord "10.0.0.2" 60) "mail") records
           TypeA ClassINET _ env0 eq_refl eq_refl eq_refl).
Defined.

Lemma destroyed_record_is_unresolved_witness :
  RequestHandler_split NewRR
    (api (config []) (mkAdminRequest ["s3cret"] (DESTROY "www"))).1
    [q "www.example.com."] [] [] env0
  = (Returned ([], [q "www.example.com."]), env0).
Proof.
  exact (destroyed_record_is_unresolved NewRR (config []) ["s3cret"] "www"
           TypeA ClassINET env0 eq_refl).
Defined.

Lemma RecurseHandler_exhausts_witness :
  let request := query ["a.test."] in
  let config := config [ns "down:53"; ns "away:53"] in
  let env' := (RecurseHandler Exchange config request env0).2 in
  sent <$> new_exchanges env0 env' = forwarded request <$> Nameservers config.
Proof.
  cbv zeta.
  apply (RecurseHandler_exhausts Exchange (config [ns "down:53"; ns "away:53"])
           (query ["a.test."]) env0).
  vm_compute. repeat constructor.
Defined.

Lemma Resolve_stops_when_answered_witness :
  let config := config [ns "ns-a:53"; ns "ns-b:53"] in
  let questions := [q "a.example.com."] in
  length (new_exchanges env0 (Resolve Exchange config questions env0).2) = 1
  ∧ ∃ answers,
      (Resolve Exchange config questions env0).1 = Returned answers
      ∧ ∀ question, question ∈ questions → Q_Name question ∈ owners answers.
Proof.
  cbv zeta. split; [reflexivity|].
  apply (Resolve_stops_when_answered Exchange (config [ns "ns-a:53"; ns "ns-b:53"])
           [q "a.example.com."] env0).
  vm_compute. lia.
Defined.

Lemma Resolve_exchanges_while_pending_witness :
  let config := config [ns "ns-c:53"; ns "ns-b:53"] in
  let questions := [q "b.example.com."] in
  let tried := new_exchanges env0 (Resolve Exchange config questions env0).2 in
  length tried = 2
  ∧ ∃ question, question ∈ questions
      ∧ Q_Name question ∉ owners (concat (answers_of <$> take 1 tried)).
Proof.
  cbv zeta. split; [reflexivity|].
  apply (Resolve_exchanges_while_pending Exchange (config [ns "ns-c:53"; ns "ns-b:53"])
           [q "b.example.com."] env0 1).
  vm_compute. lia.
Defined.

Lemma Resolve_nothing_to_do_witness :
  Resolve Exchange (config []) [q "a.example.com."] env0 = (Returned [], env0)
  ∧ Resolve Exchange (config [ns "ns-a:53"]) [] env0 = (Returned [], env0).
Proof.
  split.
  - exact (Resolve_nothing_to_do Exchange (config []) [q "a.example.com."] env0
             (or_intror eq_refl)).
  - exact (Resolve_nothing_to_do Exchange (config [ns "ns-a:53"]) [] env0
             (or_introl eq_refl)).
Defined.

Lemma RequestHandler_local_only_witness :
  let request := query ["www.example.com."] in
  let env' := (RequestHandler Exchange NewRR Host (config [ns "ns-a:53"]) request env0).2 in
  length (written env') = 1 ∧ exchanges env' = exchanges env0 ∧ world env' = world env0.
Proof.
  cbv zeta. split; [reflexivity|].
  apply (RequestHandler_local_only Exchange NewRR Host (config [ns "ns-a:53"])
           (query ["www.example.com."]) env0).
  by vm_compute.
Defined.

Lemma RequestHandler_reply_header_witness :
  let request := query ["nowhere.example.com."] in
  let env' := (RequestHandler Exchange NewRR Host (config [ns "down:53"]) request env0).2 in
  let m := default new_Msg (last (written env')) in
  Answer m = []
  ∧ Rcode (Hdr m) = RcodeSuccess
  ∧ Response (Hdr m) = true
  ∧ Id (Hdr m) = Id (Hdr request)
  ∧ Questions m = take 1 (Questions request).
Proof.
  cbv zeta. split; [reflexivity|].
  apply (RequestHandler_reply_header Exchange NewRR Host (config [ns "down:53"])
           (query ["nowhere.example.com."]) env0).
  vm_compute; reflexivity.
Defined.

Lemma Host_is_dotted_quad_witness :
  MustGetAddress InterfaceByName Addrs "eth7"
  = Returned [Byte.xc0; Byte.xa8; Byte.x00; Byte.x02]
  ∧ ∃ a b c d,
      To4 [Byte.xc0; Byte.xa8; Byte.x00; Byte.x02] = Some [a; b; c; d]
      ∧ Host_value InterfaceByName Addrs
        = Returned (pretty (Byte.to_N a) +:+ "." +:+ pretty (Byte.to_N b) +:+ "."
                    +:+ pretty (Byte.to_N c) +:+ "." +:+ pretty (Byte.to_N d)).
Proof.
  split; [reflexivity|].
  exact (Host_is_dotted_quad InterfaceByName Addrs
           [Byte.xc0; Byte.xa8; Byte.x00; Byte.x02] eq_refl).
Defined.

End More_examples.
